(** * mio: metered IO and the self-cleaning histogram

    A shallow embedding of package [mio]: the [Reader] and [Writer] wrappers
    that time every transfer into a histogram, and [SelfCleaningHistogram],
    whose background goroutine [decay] clears the wrapped histogram after a
    period without registered users.

    The goroutines of the program are interleaved by a step function whose
    labels are a call of [Register], [Done] or [Shutdown] run without
    interruption, one statement of [decay], a timer of the runtime
    expiring, the function of an expired timer running, and the clock
    advancing.  Module [Statements] interleaves the calls themselves one
    statement at a time. *)

From Stdlib.Strings Require Import Byte String.
From stdpp Require Import base numbers list.

(** ** Channels of type [chan struct{}]

    The elements carry no data, so a buffer is the number of queued
    elements.  [make(chan struct{})] has capacity 0, [make(chan struct{}, 1)]
    capacity 1. *)

Record chan := Chan {
  cap : nat;
  buf : nat;
  chan_closed : bool
}.

Definition make_chan (n : nat) : chan :=
  {| cap := n; buf := 0; chan_closed := false |}.

(** The outcome of [select { case ch <- struct{}{}: default: }].  A send on
    a closed channel panics; a receiver parked on the channel takes the
    element directly; otherwise the element is queued when the buffer has
    room, and the [default] case runs when it has none.

    Only a receiver on an unbuffered channel has to be found parked.  A
    receiver blocked on a buffered channel proceeds as soon as an element is
    queued, and whether the runtime passes the element through the buffer
    cannot be observed: such a receive is a step that is enabled when
    [recv_ready] holds, and its sender is given [receiver_parked = false]. *)
Inductive send_result :=
  | SendPanic
  | Handoff
  | Buffered (ch' : chan)
  | Dropped.

Definition try_send (receiver_parked : bool) (ch : chan) : send_result :=
  if chan_closed ch then SendPanic
  else if receiver_parked then Handoff
  else if (buf ch <? cap ch)%nat
       then Buffered {| cap := cap ch; buf := S (buf ch); chan_closed := false |}
       else Dropped.

(** A receive is ready when an element is queued or the channel is closed. *)
Definition recv_ready (ch : chan) : bool :=
  (0 <? buf ch)%nat || chan_closed ch.

Definition recv (ch : chan) : chan :=
  {| cap := cap ch; buf := pred (buf ch); chan_closed := chan_closed ch |}.

(** [close(ch)]: closing a closed channel panics. *)
Definition close_chan (ch : chan) : option chan :=
  if chan_closed ch then None
  else Some {| cap := cap ch; buf := buf ch; chan_closed := true |}.

(** ** Timers of the runtime ([time.AfterFunc], [Timer.Stop]) *)

Inductive timer_status :=
  | TPending    (* armed, the function not started *)
  | TStopped    (* Stop came before the deadline was served *)
  | TStarted    (* expired: the function runs in its own goroutine *)
  | TFinished.  (* the function has run *)

Record timer := Timer {
  deadline : Z;
  status : timer_status
}.

(** [t.Stop()] prevents a pending timer from firing and does nothing to a
    timer that has expired or was stopped. *)
Definition stop_timer (tm : timer) : timer :=
  match status tm with
  | TPending => {| deadline := deadline tm; status := TStopped |}
  | _ => tm
  end.

(** ** The result of a call that may panic *)

Inductive result (A : Type) :=
  | Ret (a : A)
  | Panic.
Arguments Ret {A} a.
Arguments Panic {A}.

Definition uint64_mod : Z := 2 ^ 64.

(** Modelled from the spec: the wrapped [Histogram] is an external
    collaborator (the StatisticsSink of the spec, a metrics histogram); only
    its interface is declared in the package.  Its sample pool is the list
    of the inserted samples: insertion adds one, reset discards all, and the
    count is their number. *)
Definition samples : Type := list Z.
Definition samples_Update (v : Z) (p : samples) : samples := v :: p.
Definition samples_Clear (p : samples) : samples := [].
Definition samples_Count (p : samples) : Z := Z.of_nat (length p).

Module SelfCleaningHistogram.

Local Open Scope Z_scope.

(** Where the goroutine [decay] stands. *)
Inductive pc :=
  | AtSelect     (* about to run the [select] on h.c and h.q *)
  | InSelect     (* parked in that [select]: spec state Waiting / Armed *)
  | AtStop       (* received from h.c; next [if t != nil { t.Stop() }] *)
  | AtRecvD      (* at [<-h.d], blocked while h.d is empty: spec state Draining *)
  | AtArm        (* received from h.d; next [t = time.AfterFunc(delay, h.Clear)] *)
  | AtQuit       (* received from h.q; next [if t != nil { t.Stop() }; return] *)
  | Exited.      (* returned: spec state Terminated *)

Definition pc_eqb (a b : pc) : bool :=
  match a, b with
  | AtSelect, AtSelect | InSelect, InSelect | AtStop, AtStop
  | AtRecvD, AtRecvD | AtArm, AtArm
  | AtQuit, AtQuit | Exited, Exited => true
  | _, _ => false
  end.

(** The struct, the locals of its [decay] goroutine, and the part of the
    runtime the goroutine uses (timers and clock).  [pool] is the embedded
    [Histogram]; [clears] counts the calls of its [Clear]. *)
Record state := State {
  pool : samples;
  clears : nat;
  c : chan;
  q : chan;
  d : chan;
  closed : bool;
  cnt : Z;
  delay : Z;
  decay_pc : pc;
  t : option nat;
  timers : list timer;
  now : Z
}.

Definition set_pool (s : state) (x : samples) (k : nat) : state :=
  State x k (c s) (q s) (d s) (closed s) (cnt s) (delay s) (decay_pc s) (t s) (timers s) (now s).
Definition set_c (s : state) (x : chan) : state :=
  State (pool s) (clears s) x (q s) (d s) (closed s) (cnt s) (delay s) (decay_pc s) (t s) (timers s) (now s).
Definition set_q (s : state) (x : chan) : state :=
  State (pool s) (clears s) (c s) x (d s) (closed s) (cnt s) (delay s) (decay_pc s) (t s) (timers s) (now s).
Definition set_d (s : state) (x : chan) : state :=
  State (pool s) (clears s) (c s) (q s) x (closed s) (cnt s) (delay s) (decay_pc s) (t s) (timers s) (now s).
Definition set_closed (s : state) (x : bool) : state :=
  State (pool s) (clears s) (c s) (q s) (d s) x (cnt s) (delay s) (decay_pc s) (t s) (timers s) (now s).
Definition set_cnt (s : state) (x : Z) : state :=
  State (pool s) (clears s) (c s) (q s) (d s) (closed s) x (delay s) (decay_pc s) (t s) (timers s) (now s).
Definition set_pc (s : state) (x : pc) : state :=
  State (pool s) (clears s) (c s) (q s) (d s) (closed s) (cnt s) (delay s) x (t s) (timers s) (now s).
Definition set_t (s : state) (x : option nat) : state :=
  State (pool s) (clears s) (c s) (q s) (d s) (closed s) (cnt s) (delay s) (decay_pc s) x (timers s) (now s).
Definition set_timers (s : state) (x : list timer) : state :=
  State (pool s) (clears s) (c s) (q s) (d s) (closed s) (cnt s) (delay s) (decay_pc s) (t s) x (now s).
Definition set_now (s : state) (x : Z) : state :=
  State (pool s) (clears s) (c s) (q s) (d s) (closed s) (cnt s) (delay s) (decay_pc s) (t s) (timers s) x.

(** The promoted methods of the embedded histogram. *)
Definition Update (v : Z) (s : state) : state :=
  set_pool s (samples_Update v (pool s)) (clears s).
Definition Clear (s : state) : state :=
  set_pool s (samples_Clear (pool s)) (S (clears s)).
Definition Count (s : state) : Z := samples_Count (pool s).

(** [NewSelfCleaningHistogram(histogram, delay)].  The constructor returns
    after [decay] has closed [guard], so the goroutine stands before its
    first [select] with [t == nil]. *)
Definition NewSelfCleaningHistogram (histogram : samples) (dl : Z) : state :=
  {| pool := histogram; clears := 0;
     c := make_chan 0; q := make_chan 0; d := make_chan 1;
     closed := false; cnt := 0;
     delay := dl; decay_pc := AtSelect; t := None;
     timers := []; now := 0 |}.

(** [atomic.AddUint64(&h.cnt, 1)] and the non-blocking send on h.c.  The
    only receiver of h.c is the [select] of [decay].  This is the call run
    without interruption between its two statements. *)
Definition Register (s : state) : result state :=
  let s1 := set_cnt s ((cnt s + 1) mod uint64_mod) in
  match try_send (pc_eqb (decay_pc s1) InSelect) (c s1) with
  | SendPanic => Panic
  | Handoff => Ret (set_pc s1 AtStop)
  | Buffered c' => Ret (set_c s1 c')
  | Dropped => Ret s1
  end.

(** [atomic.AddUint64(&h.cnt, ^uint64(0))]; when the new value is 0, the
    non-blocking send on the buffered h.d, from which [decay] receives at
    [<-h.d].  This is the call run without interruption between the add and
    the send. *)
Definition Done (s : state) : result state :=
  let n := (cnt s + (uint64_mod - 1)) mod uint64_mod in
  let s1 := set_cnt s n in
  if n =? 0 then
    match try_send false (d s1) with
    | SendPanic => Panic
    | Buffered d' => Ret (set_d s1 d')
    | Handoff | Dropped => Ret s1
    end
  else Ret s1.

(** [Shutdown]: under the [closed] flag, [close(h.q)].  Closing wakes the
    receivers of h.q: a [decay] parked in its [select] leaves by the
    [case <-h.q].  This is the call run without interruption between the
    test of the flag, its assignment and the close. *)
Definition Shutdown (s : state) : result state :=
  if closed s then Ret s
  else
    let s1 := set_closed s true in
    match close_chan (q s1) with
    | None => Panic
    | Some q' =>
        let s2 := set_q s1 q' in
        Ret (if pc_eqb (decay_pc s2) InSelect then set_pc s2 AtQuit else s2)
    end.

(** [if t != nil { t.Stop() }] *)
Definition stop_if_set (s : state) : state :=
  match t s with
  | Some i => set_timers s (alter stop_timer i (timers s))
  | None => s
  end.

(** [t = time.AfterFunc(delay, h.Clear)] *)
Definition arm (s : state) : state :=
  let i := length (timers s) in
  set_t (set_timers s (timers s ++ [Timer (now s + delay s) TPending])) (Some i).

(** One statement of [decay]; [None] when the goroutine is blocked or has
    returned.  Senders on h.c never wait, so [case <-h.c] is ready only by
    the buffer (or a close) of h.c; the constructor makes h.c unbuffered and
    nothing closes it, so in the states of the program at most one case of
    the [select] is ready on arrival, and a parked [select] is left through
    [Register] (hand-off) or [Shutdown] (close). *)
Definition decay_step (s : state) : option state :=
  match decay_pc s with
  | AtSelect =>
      if recv_ready (c s) then Some (set_pc (set_c s (recv (c s))) AtStop)
      else if recv_ready (q s) then Some (set_pc s AtQuit)
      else Some (set_pc s InSelect)
  | InSelect => None
  | AtStop => Some (set_pc (stop_if_set s) AtRecvD)
  | AtRecvD =>
      if recv_ready (d s) then Some (set_pc (set_d s (recv (d s))) AtArm)
      else None
  | AtArm => Some (set_pc (arm s) AtSelect)
  | AtQuit => Some (set_pc (stop_if_set s) Exited)
  | Exited => None
  end.

(** A pending timer whose deadline has come expires: the runtime starts its
    function [h.Clear] in a goroutine of its own. *)
Definition expire (i : nat) (s : state) : option state :=
  match timers s !! i with
  | Some (Timer dl TPending) =>
      if dl <=? now s
      then Some (set_timers s (<[i := Timer dl TStarted]> (timers s)))
      else None
  | _ => None
  end.

(** The goroutine of an expired timer runs [h.Clear]. *)
Definition run_clear (i : nat) (s : state) : option state :=
  match timers s !! i with
  | Some (Timer dl TStarted) =>
      Some (Clear (set_timers s (<[i := Timer dl TFinished]> (timers s))))
  | _ => None
  end.

Definition tick (s : state) : state := set_now s (now s + 1).

(** ** Interleavings *)

Inductive label :=
  | LRegister
  | LDone
  | LShutdown
  | LUpdate (v : Z)
  | LDecay
  | LExpire (i : nat)
  | LClear (i : nat)
  | LTick.

Definition label_eq_dec (a b : label) : {a = b} + {a <> b}.
Proof. decide equality; first [apply Z.eq_dec | apply Nat.eq_dec]. Defined.

Definition of_result (r : result state) : option state :=
  match r with Ret s => Some s | Panic => None end.

(** One step; [None] when the step is not enabled or panics. *)
Definition step (l : label) (s : state) : option state :=
  match l with
  | LRegister => of_result (Register s)
  | LDone => of_result (Done s)
  | LShutdown => of_result (Shutdown s)
  | LUpdate v => Some (Update v s)
  | LDecay => decay_step s
  | LExpire i => expire i s
  | LClear i => run_clear i s
  | LTick => Some (tick s)
  end.

Fixpoint run (ls : list label) (s : state) : option state :=
  match ls with
  | [] => Some s
  | l :: ls' =>
      match step l s with
      | Some s' => run ls' s'
      | None => None
      end
  end.

End SelfCleaningHistogram.

(** ** Metered streams

    [Reader] and [Writer] wrap an [io.Reader] / [io.Writer] and a
    [Histogram].  What the wrappers do to their collaborators is recorded as
    the sequence of calls they make; what the collaborators answer comes
    from the environment [E]: the state of the wrapped stream and the wall
    clock. *)

Inductive error := Err (msg : string).

(** The calls a wrapper makes on the histogram and on the wrapped stream. *)
Inductive call :=
  | CallRegister
  | CallDone
  | CallUpdate (ns : Z)
  | CallXfer (p : list byte)
  | CallClose.

Definition call_eq_dec (a b : call) : {a = b} + {a <> b}.
Proof.
  decide equality; [apply Z.eq_dec | apply List.list_eq_dec, Byte.byte_eq_dec].
Defined.

(** The interface value [h Histogram]: nil, a histogram that is not a
    [Registrar], or one that is (a [*SelfCleaningHistogram]). *)
Inductive histogram :=
  | NilHistogram
  | PlainHistogram
  | RegistrarHistogram.

Definition is_nil (h : histogram) : bool :=
  match h with NilHistogram => true | _ => false end.

(** [_, ok := h.(Registrar)]: false on the nil interface. *)
Definition is_registrar (h : histogram) : bool :=
  match h with RegistrarHistogram => true | _ => false end.

Definition bind {A B : Type} (r : result A) (k : A -> result B) : result B :=
  match r with
  | Ret a => k a
  | Panic => Panic
  end.

Notation "x <- r ;; k" := (bind r (fun x => k))
  (at level 100, r at next level, right associativity).

(** [time.Time] as nanoseconds; [Sub] saturates to the range of
    [time.Duration] (int64 nanoseconds). *)
Definition zero_time : Z := 0.

Definition time_Sub (a b : Z) : Z :=
  Z.max (- 2 ^ 63) (Z.min (2 ^ 63 - 1) (a - b)).

Definition Nanoseconds (dur : Z) : Z := dur.

Section Metered.

Local Open Scope Z_scope.

(** The environment and its clock: [time.Now()] reads the clock, which
    may move with every reading. *)
Context {E : Type}.
Variable time_now : E -> Z * E.

(** An [io.Reader] or [io.Writer] value: its Read / Write method, and its
    Close method when the dynamic type implements [io.Closer]. *)
Record stream := Stream {
  xfer : list byte -> E -> (Z * option error) * E;
  closer : option (E -> option error * E)
}.

Record world := World {
  env : E;
  log : list call
}.

Definition record_call (k : call) (w : world) : world :=
  {| env := env w; log := log w ++ [k] |}.

Definition time_Now (w : world) : Z * world :=
  let '(tm, e) := time_now (env w) in (tm, {| env := e; log := log w |}).

(** Method calls through the interface value panic on nil. *)
Definition call_Update (h : histogram) (ns : Z) (w : world) : result world :=
  if is_nil h then Panic else Ret (record_call (CallUpdate ns) w).

Definition call_xfer (st : stream) (p : list byte) (w : world)
  : (Z * option error) * world :=
  let '(r, e) := xfer st p (env w) in
  (r, {| env := e; log := log w ++ [CallXfer p] |}).

Definition call_close (f : E -> option error * E) (w : world)
  : option error * world :=
  let '(r, e) := f (env w) in
  (r, {| env := e; log := log w ++ [CallClose] |}).

(** *** Reader *)

Record Reader := mkReader {
  reader_stream : stream;
  reader_h : histogram;
  reader_closed : bool
}.

Definition NewReader (reader : stream) (h : histogram) (w : world)
  : Reader * world :=
  let mr := {| reader_stream := reader; reader_h := h; reader_closed := false |} in
  if is_registrar h then (mr, record_call CallRegister w) else (mr, w).

Definition Reader_Read (mr : Reader) (p : list byte) (w : world)
  : result ((Z * option error) * world) :=
  let '(start, w1) :=
    if negb (is_nil (reader_h mr)) then time_Now w else (zero_time, w) in
  let '((n, err), w2) := call_xfer (reader_stream mr) p w1 in
  if (0 <? n) && negb (is_nil (reader_h mr)) then
    let '(fin, w3) := time_Now w2 in
    w4 <- call_Update (reader_h mr) (Nanoseconds (time_Sub fin start)) w3 ;;
    Ret ((n, err), w4)
  else Ret ((n, err), w2).

Definition Reader_Close (mr : Reader) (w : world)
  : option error * Reader * world :=
  if reader_closed mr then (None, mr, w)
  else
    let mr1 := {| reader_stream := reader_stream mr; reader_h := reader_h mr;
                  reader_closed := true |} in
    let w1 := if is_registrar (reader_h mr1) then record_call CallDone w else w in
    match closer (reader_stream mr1) with
    | Some f => let '(r, w2) := call_close f w1 in (r, mr1, w2)
    | None => (None, mr1, w1)
    end.

(** *** Writer *)

Record Writer := mkWriter {
  writer_stream : stream;
  writer_h : histogram;
  writer_closed : bool
}.

Definition NewWriter (writer : stream) (h : histogram) (w : world)
  : Writer * world :=
  let mw := {| writer_stream := writer; writer_h := h; writer_closed := false |} in
  if is_registrar h then (mw, record_call CallRegister w) else (mw, w).

Definition Writer_Write (mw : Writer) (p : list byte) (w : world)
  : result ((Z * option error) * world) :=
  let '(start, w1) :=
    if negb (is_nil (writer_h mw)) then time_Now w else (zero_time, w) in
  let '((n, err), w2) := call_xfer (writer_stream mw) p w1 in
  if (0 <? n) && negb (is_nil (writer_h mw)) then
    let '(fin, w3) := time_Now w2 in
    w4 <- call_Update (writer_h mw) (Nanoseconds (time_Sub fin start)) w3 ;;
    Ret ((n, err), w4)
  else Ret ((n, err), w2).

Definition Writer_Close (mw : Writer) (w : world)
  : option error * Writer * world :=
  if writer_closed mw then (None, mw, w)
  else
    let mw1 := {| writer_stream := writer_stream mw; writer_h := writer_h mw;
                  writer_closed := true |} in
    let w1 := if is_registrar (writer_h mw1) then record_call CallDone w else w in
    match closer (writer_stream mw1) with
    | Some f => let '(r, w2) := call_close f w1 in (r, mw1, w2)
    | None => (None, mw1, w1)
    end.

(** Calling Close [n] times in a row, collecting what each call returns. *)
Fixpoint Reader_Close_times (n : nat) (mr : Reader) (w : world)
  : list (option error) * Reader * world :=
  match n with
  | O => ([], mr, w)
  | S n' =>
      let '(r, mr1, w1) := Reader_Close mr w in
      let '(rs, mr2, w2) := Reader_Close_times n' mr1 w1 in
      (r :: rs, mr2, w2)
  end.

Fixpoint Writer_Close_times (n : nat) (mw : Writer) (w : world)
  : list (option error) * Writer * world :=
  match n with
  | O => ([], mw, w)
  | S n' =>
      let '(r, mw1, w1) := Writer_Close mw w in
      let '(rs, mw2, w2) := Writer_Close_times n' mw1 w1 in
      (r :: rs, mw2, w2)
  end.

Definition count_call (k : call) (l : list call) : nat :=
  count_occ call_eq_dec l k.

(** What the first Close of a wrapper asks of its collaborators. *)
Definition close_calls (h : histogram) (st : stream) : list call :=
  (if is_registrar h then [CallDone] else []) ++
  (match closer st with Some _ => [CallClose] | None => [] end).

(** What the Close of the wrapped stream returns, and the environment it
    leaves, when the stream has one. *)
Definition underlying_close (st : stream) (e : E) : option error * E :=
  match closer st with
  | Some f => f e
  | None => (None, e)
  end.

End Metered.

(** A clock that moves by one nanosecond with every reading, and a stream
    over it whose transfers take ten nanoseconds, move five bytes and fail;
    its Close fails too. *)
Definition example_clock (e : Z) : Z * Z := (e, (e + 1)%Z).

Definition short_stream : @stream Z :=
  {| xfer := fun _ e => ((5%Z, Some (Err "unexpected EOF")), (e + 10)%Z);
     closer := Some (fun e => (Some (Err "already closed"), e)) |}.

(** ** Vocabulary of the statements about the histogram *)

Module Sched.

Import SelfCleaningHistogram.
Local Open Scope Z_scope.

(** The states of the program: those an interleaving reaches from the
    constructor. *)
Definition reachable (s : state) : Prop :=
  exists histogram dl ls, run ls (NewSelfCleaningHistogram histogram dl) = Some s.

(** Program points of [decay] at which its timer may be pending. *)
Definition may_be_armed (p : pc) : bool :=
  match p with
  | AtSelect | InSelect | AtStop | AtQuit => true
  | AtRecvD | AtArm | Exited => false
  end.

(** The outer wait of [decay]: at or in its [select]. *)
Definition outer_wait (p : pc) : bool :=
  match p with
  | AtSelect | InSelect => true
  | _ => false
  end.

(** The invariant of the reachable states. *)
Record wf (s : state) : Prop := {
  wf_c : c s = make_chan 0;
  wf_q : q s = {| cap := 0; buf := 0; chan_closed := closed s |};
  wf_d_cap : cap (d s) = 1%nat;
  wf_d_buf : (buf (d s) <= 1)%nat;
  wf_d_open : chan_closed (d s) = false;
  wf_cnt : 0 <= cnt s < uint64_mod;
  wf_select : closed s = true -> decay_pc s <> InSelect;
  wf_t : match t s with
         | Some i => S i = length (timers s)
         | None => timers s = []
         end;
  wf_pending : forall i tm, timers s !! i = Some tm -> status tm = TPending ->
               t s = Some i /\ may_be_armed (decay_pc s) = true
}.

Definition is_register (l : label) : bool :=
  match l with LRegister => true | _ => false end.

Definition is_done (l : label) : bool :=
  match l with LDone => true | _ => false end.

Definition is_shutdown (l : label) : bool :=
  match l with LShutdown => true | _ => false end.

(** The labels that are calls of [Register] or [Done]. *)
Definition is_call (l : label) : bool := is_register l || is_done l.

(** The labels by which time passes and samples arrive while nobody
    registers or shuts down: clock ticks, [Update], and [decay] itself. *)
Definition is_quiet (l : label) : bool :=
  match l with
  | LTick | LUpdate _ | LDecay => true
  | _ => false
  end.

Definition registers (ls : list label) : Z :=
  Z.of_nat (length (filter (fun l => is_register l = true) ls)).

Definition dones (ls : list label) : Z :=
  Z.of_nat (length (filter (fun l => is_done l = true) ls)).

(** What one step adds to the live-count. *)
Definition delta (l : label) : Z :=
  (if is_register l then 1 else 0) - (if is_done l then 1 else 0).

(** [n] calls of [Shutdown] in a row. *)
Fixpoint Shutdown_times (n : nat) (s : state) : result state :=
  match n with
  | O => Ret s
  | S n' => s1 <- Shutdown s ;; Shutdown_times n' s1
  end.

(** Program points of a [decay] on its way out once h.q is closed. *)
Definition quitting (p : pc) : bool :=
  match p with
  | AtSelect | AtQuit | Exited => true
  | _ => false
  end.

(** [decay] has returned, or returns by its next one or two statements,
    which are enabled. *)
Definition exits_within_two (s : state) : Prop :=
  decay_pc s = Exited \/
  exists s1, decay_step s = Some s1 /\
    (decay_pc s1 = Exited \/
     exists s2, decay_step s1 = Some s2 /\ decay_pc s2 = Exited).

(** A histogram whose [decay] is in Draining with one user registered: the
    state after the constructor, [decay] parking in its [select], a
    [Register], and [decay] stopping its (nil) timer. *)
Definition draining_example : state :=
  Eval vm_compute in
    match run [LDecay; LRegister; LDecay] (NewSelfCleaningHistogram [] 150) with
    | Some s => s
    | None => NewSelfCleaningHistogram [] 150
    end.

(** Program points of a [decay] that has never left its outer wait except
    to quit: it has armed no timer. *)
Definition never_armed (p : pc) : bool :=
  match p with
  | AtSelect | InSelect | AtQuit | Exited => true
  | _ => false
  end.

(** No timer of the state can expire. *)
Definition no_timer_can_fire (s : state) : Prop :=
  forall i, expire i s = None.

End Sched.

(** ** Vocabulary of the statements about usage *)

Module Usage.

Import SelfCleaningHistogram Sched.
Local Open Scope Z_scope.

(** How many elements of a list satisfy a test. *)
Fixpoint countb {A : Type} (f : A -> bool) (l : list A) : nat :=
  match l with
  | [] => 0
  | x :: l' => (if f x then 1 else 0) + countb f l'
  end.

Definition is_pending (tm : timer) : bool :=
  match status tm with TPending => true | _ => false end.

Definition is_finished (tm : timer) : bool :=
  match status tm with TFinished => true | _ => false end.

(** A timer whose function has been started. *)
Definition has_fired (tm : timer) : bool :=
  match status tm with TStarted | TFinished => true | _ => false end.

(** The deadline of a timer that has fired is not in the future. *)
Definition fired_in_time (s : state) : Prop :=
  forall i tm, timers s !! i = Some tm -> has_fired tm = true -> deadline tm <= now s.

(** [decay] has received an activity pulse and not yet armed the timer that
    answers it. *)
Definition answering (p : pc) : bool :=
  match p with
  | AtStop | AtRecvD | AtArm => true
  | _ => false
  end.

(** The timers armed so far, counting the one [decay] owes to the pulse it
    is answering; and counting instead the drained signals it has yet to
    turn into a timer. *)
Definition armed_or_answering (s : state) : nat :=
  length (timers s) + (if answering (decay_pc s) then 1 else 0).

Definition armed_or_drained (s : state) : nat :=
  length (timers s) + buf (d s) + (if pc_eqb (decay_pc s) AtArm then 1 else 0).



(** A histogram whose [decay] is parked with its timer armed: a user has
    registered and is done. *)
Definition armed_example : state :=
  Eval vm_compute in
    match run [LDecay; LRegister; LDecay; LUpdate 7; LDone; LDecay; LDecay; LDecay]
              (NewSelfCleaningHistogram [] 150) with
    | Some s => s
    | None => NewSelfCleaningHistogram [] 150
    end.

(** A histogram whose [decay] has just received the drained signal and is
    about to arm its timer, with a delay of 3. *)
Definition arming_example : state :=
  Eval vm_compute in
    match run [LDecay; LRegister; LDecay; LDone; LDecay]
              (NewSelfCleaningHistogram [] 3) with
    | Some s => s
    | None => NewSelfCleaningHistogram [] 3
    end.

(** What a call recorded by a wrapper is for a [*SelfCleaningHistogram]
    attached to it: a step of the histogram, or nothing when the call goes
    to the wrapped stream. *)
Definition label_of_call (k : call) : list label :=
  match k with
  | CallRegister => [LRegister]
  | CallDone => [LDone]
  | CallUpdate ns => [LUpdate ns]
  | CallXfer _ | CallClose => []
  end.

Definition labels_of_log (l : list call) : list label :=
  flat_map label_of_call l.

Definition is_update (k : call) : bool :=
  match k with CallUpdate _ => true | _ => false end.

Definition is_xfer (k : call) : bool :=
  match k with CallXfer _ => true | _ => false end.

(** The calls a transfer makes: on the wrapped stream, and [Update]. *)
Definition is_transfer_call (k : call) : bool := is_xfer k || is_update k.

(** The transfers that moved at least one byte. *)
Definition is_positive (r : Z * option error) : bool := 0 <? fst r.

Section Callers.

Context {E : Type}.
Variable time_now : E -> Z * E.

(** Reads (Writes) in a row, one per buffer, collecting what each returns:
    the calls a loop such as io.Copy makes on the wrapper. *)
Fixpoint Reader_Read_all (mr : Reader) (ps : list (list byte)) (w : @world E)
  : result (list (Z * option error) * world) :=
  match ps with
  | [] => Ret ([], w)
  | p :: ps' =>
      x <- Reader_Read time_now mr p w ;;
      y <- Reader_Read_all mr ps' (snd x) ;;
      Ret (fst x :: fst y, snd y)
  end.

Fixpoint Writer_Write_all (mw : Writer) (ps : list (list byte)) (w : @world E)
  : result (list (Z * option error) * world) :=
  match ps with
  | [] => Ret ([], w)
  | p :: ps' =>
      x <- Writer_Write time_now mw p w ;;
      y <- Writer_Write_all mw ps' (snd x) ;;
      Ret (fst x :: fst y, snd y)
  end.

(** The life of a wrapper as the tests of the package lead it: construct
    it, transfer through it, close it [S n] times. *)
Definition Reader_life (st : stream) (h : histogram) (ps : list (list byte))
  (n : nat) (w : @world E) : result (list (Z * option error) * world) :=
  let '(mr, w0) := NewReader st h w in
  x <- Reader_Read_all mr ps w0 ;;
  Ret (fst x, snd (Reader_Close_times (S n) mr (snd x))).

Definition Writer_life (st : stream) (h : histogram) (ps : list (list byte))
  (n : nat) (w : @world E) : result (list (Z * option error) * world) :=
  let '(mw, w0) := NewWriter st h w in
  x <- Writer_Write_all mw ps w0 ;;
  Ret (fst x, snd (Writer_Close_times (S n) mw (snd x))).

End Callers.

End Usage.

(** ** The calls, statement by statement

    [Register], [Done] and [Shutdown] hold no lock: another goroutine can
    run between two statements of a call.  The functions [Register], [Done]
    and [Shutdown] above are the calls run without interruption; here each
    statement of a call is a step of its own, and a configuration records
    how many calls stand between two of their statements. *)

Module Statements.

Import SelfCleaningHistogram Sched.
Local Open Scope Z_scope.

(** [atomic.AddUint64(&h.cnt, 1)] *)
Definition Register_add (s : state) : state :=
  set_cnt s ((cnt s + 1) mod uint64_mod).

(** [select { case h.c <- struct{}{}: default: }] *)
Definition Register_send (s : state) : result state :=
  match try_send (pc_eqb (decay_pc s) InSelect) (c s) with
  | SendPanic => Panic
  | Handoff => Ret (set_pc s AtStop)
  | Buffered c' => Ret (set_c s c')
  | Dropped => Ret s
  end.

(** [cnt := atomic.AddUint64(&h.cnt, ^uint64(0))]: the state and the local
    variable [cnt]. *)
Definition Done_add (s : state) : state * Z :=
  let n := (cnt s + (uint64_mod - 1)) mod uint64_mod in
  (set_cnt s n, n).

(** [select { case h.d <- struct{}{}: default: }], reached when the local
    [cnt] is 0. *)
Definition Done_send (s : state) : result state :=
  match try_send false (d s) with
  | SendPanic => Panic
  | Buffered d' => Ret (set_d s d')
  | Handoff | Dropped => Ret s
  end.

(** [!h.closed] *)
Definition Shutdown_test (s : state) : bool := negb (closed s).

(** [h.closed = true] *)
Definition Shutdown_set (s : state) : state := set_closed s true.

(** [close(h.q)] *)
Definition Shutdown_close (s : state) : result state :=
  match close_chan (q s) with
  | None => Panic
  | Some q' =>
      let s2 := set_q s q' in
      Ret (if pc_eqb (decay_pc s2) InSelect then set_pc s2 AtQuit else s2)
  end.

(** The struct with its goroutine and timers, and the calls under way:
    calls of [Register] between the add and the send, calls of [Done] that
    have read 0 and stand before the send, calls of [Shutdown] that have
    found the flag unset and stand before [h.closed = true], and calls of
    [Shutdown] between that assignment and [close(h.q)]. *)
Record config := Config {
  shared : state;
  sending_c : nat;
  sending_d : nat;
  setting : nat;
  closing : nat
}.

Definition idle (s : state) : config := Config s 0 0 0 0.

Definition start (histogram : samples) (dl : Z) : config :=
  idle (NewSelfCleaningHistogram histogram dl).

Inductive stmt :=
  | RegisterAdd
  | RegisterSend
  | DoneAdd
  | DoneSend
  | ShutdownTest
  | ShutdownSet
  | ShutdownClose
  | Sample (v : Z)       (* a call of [Update] *)
  | DecayStmt            (* one statement of [decay] *)
  | TimerExpires (i : nat)
  | TimerRuns (i : nat)  (* the function [h.Clear] of an expired timer *)
  | ClockTick.

Inductive outcome :=
  | Next (k : config)
  | Panics
  | Disabled.

Definition with_shared (k : config) (s : state) : config :=
  Config s (sending_c k) (sending_d k) (setting k) (closing k).

Definition of_step (k : config) (o : option state) : outcome :=
  match o with
  | Some s => Next (with_shared k s)
  | None => Disabled
  end.

(** One statement; [Disabled] when no call stands before the statement, or
    the goroutine or timer concerned cannot move. *)
Definition exec_stmt (x : stmt) (k : config) : outcome :=
  match x with
  | RegisterAdd =>
      Next (Config (Register_add (shared k))
                   (S (sending_c k)) (sending_d k) (setting k) (closing k))
  | RegisterSend =>
      match sending_c k with
      | O => Disabled
      | S n =>
          match Register_send (shared k) with
          | Ret s => Next (Config s n (sending_d k) (setting k) (closing k))
          | Panic => Panics
          end
      end
  | DoneAdd =>
      let (s, n) := Done_add (shared k) in
      Next (Config s (sending_c k)
                   (if n =? 0 then S (sending_d k) else sending_d k)
                   (setting k) (closing k))
  | DoneSend =>
      match sending_d k with
      | O => Disabled
      | S n =>
          match Done_send (shared k) with
          | Ret s => Next (Config s (sending_c k) n (setting k) (closing k))
          | Panic => Panics
          end
      end
  | ShutdownTest =>
      Next (if Shutdown_test (shared k)
            then Config (shared k) (sending_c k) (sending_d k)
                        (S (setting k)) (closing k)
            else k)
  | ShutdownSet =>
      match setting k with
      | O => Disabled
      | S n =>
          Next (Config (Shutdown_set (shared k)) (sending_c k) (sending_d k)
                       n (S (closing k)))
      end
  | ShutdownClose =>
      match closing k with
      | O => Disabled
      | S n =>
          match Shutdown_close (shared k) with
          | Ret s => Next (Config s (sending_c k) (sending_d k) (setting k) n)
          | Panic => Panics
          end
      end
  | Sample v => Next (with_shared k (Update v (shared k)))
  | DecayStmt => of_step k (decay_step (shared k))
  | TimerExpires i => of_step k (expire i (shared k))
  | TimerRuns i => of_step k (run_clear i (shared k))
  | ClockTick => Next (with_shared k (tick (shared k)))
  end.

Fixpoint exec_stmts (xs : list stmt) (k : config) : outcome :=
  match xs with
  | [] => Next k
  | x :: xs' =>
      match exec_stmt x k with
      | Next k' => exec_stmts xs' k'
      | o => o
      end
  end.

(** The configurations of the program. *)
Definition stmt_reachable (k : config) : Prop :=
  exists histogram dl xs, exec_stmts xs (start histogram dl) = Next k.

(** The statements of a call run without interruption, from a state. *)
Definition statements_of (l : label) (s : state) : list stmt :=
  match l with
  | LRegister => [RegisterAdd; RegisterSend]
  | LDone =>
      if snd (Done_add s) =? 0 then [DoneAdd; DoneSend] else [DoneAdd]
  | LShutdown =>
      if Shutdown_test s then [ShutdownTest; ShutdownSet; ShutdownClose]
      else [ShutdownTest]
  | LUpdate v => [Sample v]
  | LDecay => [DecayStmt]
  | LExpire i => [TimerExpires i]
  | LClear i => [TimerRuns i]
  | LTick => [ClockTick]
  end.

(** The state with its flag set to what [close(h.q)] has done.  Between
    [h.closed = true] and [close(h.q)] the flag is ahead of the channel. *)
Definition flag_as_q (s : state) : state := set_closed s (chan_closed (q s)).

(** The invariant of the configurations. *)
Record stmt_inv (k : config) : Prop := {
  inv_wf : wf (flag_as_q (shared k));
  inv_flag : chan_closed (q (shared k)) = true -> closed (shared k) = true;
  inv_closing : (0 < closing k)%nat -> closed (shared k) = true
}.

(** No call of [Shutdown] tests the flag while another call of [Shutdown]
    stands between its test and its [close(h.q)]. *)
Fixpoint shutdowns_apart (xs : list stmt) (k : config) : bool :=
  match xs with
  | [] => true
  | x :: xs' =>
      match x with
      | ShutdownTest => (setting k + closing k =? 0)%nat
      | _ => true
      end &&
      match exec_stmt x k with
      | Next k' => shutdowns_apart xs' k'
      | _ => true
      end
  end.

Definition is_done_add (x : stmt) : bool :=
  match x with DoneAdd => true | _ => false end.

(** A histogram with a timer armed, [decay] parked in its [select], and a
    call of [Register] that has added to the live-count and stands before
    its send. *)
Definition registering_example : config :=
  Eval vm_compute in
    match exec_stmts [DecayStmt; RegisterAdd; RegisterSend; DecayStmt; Sample 7;
                      DoneAdd; DoneSend; DecayStmt; DecayStmt; DecayStmt;
                      RegisterAdd] (start [] 150) with
    | Next k => k
    | _ => start [] 150
    end.

(** A histogram with one user registered, [decay] at [<-h.d], h.d empty,
    and a call of [Done] that has read 0 earlier and stands before its
    send: a first user registered, and its [Done] brought the live-count to
    0 and was held up; a second user registered and was done, so that
    [decay] armed its timer; a third user registered, and [decay] stopped
    the timer. *)
Definition late_done_example : config :=
  Eval vm_compute in
    match exec_stmts [DecayStmt; RegisterAdd; RegisterSend; DoneAdd;
                      DecayStmt; RegisterAdd; RegisterSend; DoneAdd; DoneSend;
                      DecayStmt; DecayStmt; DecayStmt;
                      Sample 7; RegisterAdd; RegisterSend; DecayStmt]
                     (start [] 2) with
    | Next k => k
    | _ => start [] 2
    end.

End Statements.

(** * Theorems *)

(** ** The invariant of the self-cleaning histogram *)

Import SelfCleaningHistogram Sched.
Local Open Scope Z_scope.

(** Case analysis of an enabled step: [E] says that the step returned
    [Some s']; the tactics leave one goal per way it can have done so, with
    [s'] replaced by the state returned. *)
Ltac split_ifs E :=
  repeat match type of E with
  | context [if ?b then _ else _] => destruct b
  end.

Ltac decay_cases E :=
  unfold decay_step, stop_if_set in E;
  match type of E with
  | context [decay_pc ?s] =>
      destruct (decay_pc s); try discriminate E;
      split_ifs E; try discriminate E; injection E as <-; simpl;
      try reflexivity; destruct (t s); try reflexivity
  end.

Ltac timer_cases E :=
  unfold expire, run_clear in E;
  match type of E with
  | context [timers ?s !! ?i] =>
      destruct (timers s !! i) as [[? []]|]; try discriminate E;
      split_ifs E; try discriminate E; injection E as <-; simpl;
      try reflexivity
  end.

Lemma pc_eqb_eq (a b : pc) : pc_eqb a b = true <-> a = b.
Proof. destruct a, b; simpl; split; intros H; try reflexivity; discriminate. Qed.

Lemma uint64_mod_pos : 0 < uint64_mod.
Proof. reflexivity. Qed.

Lemma wf_New (histogram : list Z) (dl : Z) : wf (NewSelfCleaningHistogram histogram dl).
Proof.
  constructor; simpl; try reflexivity; try lia; try discriminate.
  unfold uint64_mod; lia.
Qed.

Lemma Register_eq (s : state) :
  wf s ->
  Register s =
    Ret (let s1 := set_cnt s ((cnt s + 1) mod uint64_mod) in
         if pc_eqb (decay_pc s) InSelect then set_pc s1 AtStop else s1).
Proof.
  intros H. unfold Register, try_send. simpl.
  rewrite (wf_c s H). simpl. destruct (pc_eqb (decay_pc s) InSelect); reflexivity.
Qed.

Lemma wf_set_cnt (s : state) (n : Z) : wf s -> 0 <= n < uint64_mod -> wf (set_cnt s n).
Proof. intros [] Hn. constructor; simpl; assumption. Qed.

Lemma wf_Register (s s' : state) : wf s -> Register s = Ret s' -> wf s'.
Proof.
  intros H E. rewrite (Register_eq s H) in E. injection E as <-. simpl.
  assert (Hn : 0 <= (cnt s + 1) mod uint64_mod < uint64_mod)
    by (apply Z.mod_pos_bound, uint64_mod_pos).
  pose proof (wf_set_cnt s _ H Hn) as H1.
  destruct (pc_eqb (decay_pc s) InSelect) eqn:Epc; [|exact H1].
  apply pc_eqb_eq in Epc.
  destruct H1. constructor; simpl in *; try assumption.
  - discriminate.
  - intros i tm Hi Hp. destruct (wf_pending0 i tm Hi Hp) as [Ht _]. split; [exact Ht | reflexivity].
Qed.

Lemma Done_eq (s : state) :
  wf s ->
  Done s =
    Ret (let n := (cnt s + (uint64_mod - 1)) mod uint64_mod in
         let s1 := set_cnt s n in
         if (n =? 0) && (buf (d s) =? 0)%nat
         then set_d s1 {| cap := 1; buf := 1; chan_closed := false |}
         else s1).
Proof.
  intros H. unfold Done, try_send. simpl.
  destruct (_ =? 0); simpl; [|reflexivity].
  rewrite (wf_d_open s H), (wf_d_cap s H).
  pose proof (wf_d_buf s H) as Hb.
  destruct (buf (d s)) as [|[|k]]; reflexivity.
Qed.

Lemma wf_Done (s s' : state) : wf s -> Done s = Ret s' -> wf s'.
Proof.
  intros H E. rewrite (Done_eq s H) in E. injection E as <-. simpl.
  assert (Hn : 0 <= (cnt s + (uint64_mod - 1)) mod uint64_mod < uint64_mod)
    by (apply Z.mod_pos_bound, uint64_mod_pos).
  pose proof (wf_set_cnt s _ H Hn) as H1.
  destruct (_ && _); [|exact H1].
  destruct H1. constructor; simpl in *; try assumption; reflexivity.
Qed.

Lemma Shutdown_eq (s : state) :
  wf s ->
  Shutdown s =
    Ret (if closed s then s
         else let s2 := set_q (set_closed s true)
                          {| cap := 0; buf := 0; chan_closed := true |} in
              if pc_eqb (decay_pc s) InSelect then set_pc s2 AtQuit else s2).
Proof.
  intros H. unfold Shutdown, close_chan. destruct (closed s) eqn:Ec; [reflexivity|].
  simpl. rewrite (wf_q s H), Ec. reflexivity.
Qed.

Lemma wf_Shutdown (s s' : state) : wf s -> Shutdown s = Ret s' -> wf s'.
Proof.
  intros H E. rewrite (Shutdown_eq s H) in E. injection E as <-.
  destruct (closed s) eqn:Ec; [exact H|].
  destruct (pc_eqb (decay_pc s) InSelect) eqn:Epc.
  - apply pc_eqb_eq in Epc. destruct H.
    constructor; simpl in *; try assumption; try reflexivity.
    + discriminate.
    + intros i tm Hi Hp. destruct (wf_pending0 i tm Hi Hp) as [Ht _]. split; [exact Ht | reflexivity].
  - destruct H. constructor; simpl in *; try assumption; try reflexivity.
    intros _ Hsel. rewrite Hsel in Epc. discriminate.
Qed.

(** After [t.Stop()] on the variable [t] no timer is pending. *)
Lemma stop_if_set_not_pending (s : state) :
  wf s -> forall i tm, timers (stop_if_set s) !! i = Some tm -> status tm <> TPending.
Proof.
  intros H i tm Hi Hp. unfold stop_if_set in Hi.
  destruct (t s) as [j|] eqn:Et; simpl in Hi.
  - destruct (decide (i = j)) as [->|Hne].
    + rewrite list_lookup_alter_eq in Hi.
      destruct (timers s !! j) as [tm0|]; simpl in Hi; [|discriminate].
      injection Hi as <-. unfold stop_timer in Hp.
      destruct (status tm0) eqn:Es; simpl in Hp; congruence.
    + rewrite list_lookup_alter_ne in Hi by congruence.
      destruct (wf_pending s H i tm Hi Hp) as [Ht _]. congruence.
  - destruct (wf_pending s H i tm Hi Hp) as [Ht _]. congruence.
Qed.

Lemma stop_if_set_fields (s : state) :
  c (stop_if_set s) = c s /\ q (stop_if_set s) = q s /\ d (stop_if_set s) = d s /\
  closed (stop_if_set s) = closed s /\ cnt (stop_if_set s) = cnt s /\
  t (stop_if_set s) = t s /\ length (timers (stop_if_set s)) = length (timers s) /\
  decay_pc (stop_if_set s) = decay_pc s /\ pool (stop_if_set s) = pool s /\
  clears (stop_if_set s) = clears s /\ now (stop_if_set s) = now s /\
  delay (stop_if_set s) = delay s.
Proof.
  unfold stop_if_set. destruct (t s) eqn:Et; simpl;
    repeat apply conj; try reflexivity; try assumption.
  apply length_alter.
Qed.

Lemma stop_if_set_shape (s : state) :
  wf s ->
  match t s with
  | Some i => S i = length (timers (stop_if_set s))
  | None => timers (stop_if_set s) = []
  end.
Proof.
  intros H. pose proof (wf_t s H) as Hs. unfold stop_if_set.
  destruct (t s) eqn:Et; simpl.
  - rewrite length_alter. exact Hs.
  - exact Hs.
Qed.

Lemma wf_decay_step (s s' : state) : wf s -> decay_step s = Some s' -> wf s'.
Proof.
  intros H E. unfold decay_step in E.
  destruct (decay_pc s) eqn:Epc; try discriminate.
  - (* AtSelect *)
    unfold recv_ready in E. rewrite (wf_c s H), (wf_q s H) in E. simpl in E.
    destruct (closed s) eqn:Ec; injection E as <-; destruct H;
      constructor; simpl in *; try assumption; try discriminate.
    + intros i tm Hi Hp. destruct (wf_pending0 i tm Hi Hp) as [Ht _]. split; [exact Ht | reflexivity].
    + intros Hc; congruence.
    + intros i tm Hi Hp. destruct (wf_pending0 i tm Hi Hp) as [Ht _]. split; [exact Ht | reflexivity].
  - (* AtStop *)
    injection E as <-.
    pose proof (stop_if_set_not_pending s H) as Hnp.
    pose proof (stop_if_set_shape s H) as Hsh.
    destruct (stop_if_set_fields s) as (Hc & Hq & Hd & Hcl & Hcnt & Ht & Hlen & _).
    destruct H. constructor; simpl; rewrite ?Hc, ?Hq, ?Hd, ?Hcl, ?Hcnt, ?Ht; try assumption.
    + discriminate.
    + intros i tm Hi Hp. exfalso. exact (Hnp i tm Hi Hp).
  - (* AtRecvD *)
    destruct (recv_ready (d s)) eqn:Er; [|discriminate]. injection E as <-.
    destruct H. constructor; simpl in *; try assumption; try discriminate.
    + lia.
    + intros i tm Hi Hp. destruct (wf_pending0 i tm Hi Hp) as [_ Hm]. rewrite Epc in Hm. discriminate.
  - (* AtArm *)
    injection E as <-. unfold arm.
    destruct H. constructor; simpl in *; try assumption; try discriminate.
    + rewrite length_app. simpl. lia.
    + intros i tm Hi Hp.
      destruct (decide (i < length (timers s))%nat) as [Hlt|Hge].
      * rewrite lookup_app_l in Hi by exact Hlt.
        destruct (wf_pending0 i tm Hi Hp) as [_ Hm]. rewrite Epc in Hm. discriminate.
      * split; [|reflexivity]. f_equal.
        apply lookup_lt_Some in Hi. rewrite length_app in Hi. simpl in Hi. lia.
  - (* AtQuit *)
    injection E as <-.
    pose proof (stop_if_set_not_pending s H) as Hnp.
    pose proof (stop_if_set_shape s H) as Hsh.
    destruct (stop_if_set_fields s) as (Hc & Hq & Hd & Hcl & Hcnt & Ht & Hlen & _).
    destruct H. constructor; simpl; rewrite ?Hc, ?Hq, ?Hd, ?Hcl, ?Hcnt, ?Ht; try assumption.
    + discriminate.
    + intros i tm Hi Hp. exfalso. exact (Hnp i tm Hi Hp).
Qed.

Lemma wf_expire (i : nat) (s s' : state) : wf s -> expire i s = Some s' -> wf s'.
Proof.
  intros H E. unfold expire in E.
  destruct (timers s !! i) as [[dl st]|] eqn:Ei; [|discriminate].
  destruct st; try discriminate.
  destruct (dl <=? now s); [|discriminate]. injection E as <-.
  destruct H. constructor; simpl in *; try assumption.
  - destruct (t s); [rewrite length_insert; assumption|].
    rewrite wf_t0 in Ei. discriminate.
  - intros j tm Hj Hp. destruct (decide (j = i)) as [->|Hne].
    + rewrite list_lookup_insert_eq in Hj by (eapply lookup_lt_Some; exact Ei).
      injection Hj as <-. discriminate.
    + rewrite list_lookup_insert_ne in Hj by congruence. eauto.
Qed.

Lemma wf_run_clear (i : nat) (s s' : state) : wf s -> run_clear i s = Some s' -> wf s'.
Proof.
  intros H E. unfold run_clear in E.
  destruct (timers s !! i) as [[dl st]|] eqn:Ei; [|discriminate].
  destruct st; try discriminate. injection E as <-.
  destruct H. constructor; simpl in *; try assumption.
  - destruct (t s); [rewrite length_insert; assumption|].
    rewrite wf_t0 in Ei. discriminate.
  - intros j tm Hj Hp. destruct (decide (j = i)) as [->|Hne].
    + rewrite list_lookup_insert_eq in Hj by (eapply lookup_lt_Some; exact Ei).
      injection Hj as <-. discriminate.
    + rewrite list_lookup_insert_ne in Hj by congruence. eauto.
Qed.

Lemma wf_tick (s : state) : wf s -> wf (tick s).
Proof. intros []. constructor; simpl; assumption. Qed.

Lemma wf_Update (v : Z) (s : state) : wf s -> wf (Update v s).
Proof. intros []. constructor; simpl; assumption. Qed.

Lemma of_result_Some (r : result state) (s : state) :
  of_result r = Some s <-> r = Ret s.
Proof. destruct r; simpl; split; intros H; congruence. Qed.

Lemma wf_step (l : label) (s s' : state) : wf s -> step l s = Some s' -> wf s'.
Proof.
  intros H E. destruct l; simpl in E.
  - apply of_result_Some in E. eapply wf_Register; eassumption.
  - apply of_result_Some in E. eapply wf_Done; eassumption.
  - apply of_result_Some in E. eapply wf_Shutdown; eassumption.
  - injection E as <-. apply wf_Update, H.
  - eapply wf_decay_step; eassumption.
  - eapply wf_expire; eassumption.
  - eapply wf_run_clear; eassumption.
  - injection E as <-. apply wf_tick, H.
Qed.

Lemma wf_run (ls : list label) (s s' : state) : wf s -> run ls s = Some s' -> wf s'.
Proof.
  revert s. induction ls as [|l ls IH]; intros s H E; simpl in E.
  - injection E as <-. exact H.
  - destruct (step l s) as [s1|] eqn:E1; [|discriminate].
    eapply IH; [eapply wf_step; eassumption | exact E].
Qed.

Lemma reachable_wf (s : state) : reachable s -> wf s.
Proof.
  intros (h & dl & ls & E). eapply wf_run; [apply wf_New | exact E].
Qed.

Lemma run_app (l1 l2 : list label) (s : state) :
  run (l1 ++ l2) s =
    match run l1 s with
    | Some s1 => run l2 s1
    | None => None
    end.
Proof.
  revert s. induction l1 as [|l l1 IH]; intros s; simpl; [reflexivity|].
  destruct (step l s); [apply IH | reflexivity].
Qed.

Lemma reachable_run (ls : list label) (s s' : state) :
  reachable s -> run ls s = Some s' -> reachable s'.
Proof.
  intros (h & dl & l0 & E0) E. exists h, dl, (l0 ++ ls).
  rewrite run_app, E0. exact E.
Qed.

(** ** The live-count *)

Lemma registers_cons (l : label) (ls : list label) :
  registers (l :: ls) = (if is_register l then 1 else 0) + registers ls.
Proof.
  unfold registers. rewrite filter_cons.
  destruct (decide (is_register l = true)) as [e|n].
  - rewrite e. simpl length. lia.
  - destruct (is_register l); [congruence | lia].
Qed.

Lemma dones_cons (l : label) (ls : list label) :
  dones (l :: ls) = (if is_done l then 1 else 0) + dones ls.
Proof.
  unfold dones. rewrite filter_cons.
  destruct (decide (is_done l = true)) as [e|n].
  - rewrite e. simpl length. lia.
  - destruct (is_done l); [congruence | lia].
Qed.

Lemma decay_step_cnt (s s' : state) : decay_step s = Some s' -> cnt s' = cnt s.
Proof. intros E. decay_cases E. Qed.

Lemma expire_cnt (i : nat) (s s' : state) : expire i s = Some s' -> cnt s' = cnt s.
Proof. intros E. timer_cases E. Qed.

Lemma run_clear_cnt (i : nat) (s s' : state) : run_clear i s = Some s' -> cnt s' = cnt s.
Proof. intros E. timer_cases E. Qed.

Lemma step_cnt (l : label) (s s' : state) :
  wf s -> step l s = Some s' -> cnt s' = (cnt s + delta l) mod uint64_mod.
Proof.
  intros H E. pose proof (wf_cnt s H) as Hb.
  assert (Hid : cnt s = (cnt s + 0) mod uint64_mod)
    by (rewrite Z.add_0_r, Z.mod_small; [reflexivity | exact Hb]).
  destruct l; simpl in E; unfold delta; simpl.
  - apply of_result_Some in E. rewrite (Register_eq s H) in E. injection E as <-.
    simpl. destruct (pc_eqb _ _); simpl; f_equal; lia.
  - apply of_result_Some in E. rewrite (Done_eq s H) in E. injection E as <-.
    simpl. destruct (_ && _); simpl.
    all: rewrite <- (Z_mod_plus_full (cnt s + (0 - 1)) 1 uint64_mod); f_equal; lia.
  - apply of_result_Some in E. rewrite (Shutdown_eq s H) in E. injection E as <-.
    destruct (closed s); [exact Hid|]. destruct (pc_eqb _ _); exact Hid.
  - injection E as <-. exact Hid.
  - rewrite (decay_step_cnt s s' E). exact Hid.
  - rewrite (expire_cnt i s s' E). exact Hid.
  - rewrite (run_clear_cnt i s s' E). exact Hid.
  - injection E as <-. exact Hid.
Qed.

Lemma run_cnt (ls : list label) (s s' : state) :
  wf s -> run ls s = Some s' ->
  cnt s' = (cnt s + (registers ls - dones ls)) mod uint64_mod.
Proof.
  revert s. induction ls as [|l ls IH]; intros s H E; simpl in E.
  - injection E as <-. pose proof (wf_cnt s H).
    change (registers [] - dones []) with 0. rewrite Z.add_0_r, Z.mod_small; tauto.
  - destruct (step l s) as [s1|] eqn:E1; [|discriminate].
    rewrite (IH s1 (wf_step l s s1 H E1) E), (step_cnt l s s1 H E1).
    rewrite Zplus_mod_idemp_l, registers_cons, dones_cons. unfold delta.
    f_equal. lia.
Qed.

Lemma calls_never_fail (ls : list label) (s : state) :
  wf s -> Forall (fun l => is_call l = true) ls -> exists s', run ls s = Some s'.
Proof.
  revert s. induction ls as [|l ls IH]; intros s H F; simpl.
  - eexists; reflexivity.
  - inversion F as [|? ? Hl F']; subst.
    assert (exists s1, step l s = Some s1) as [s1 E1].
    { destruct l; try discriminate; simpl.
      - rewrite (Register_eq s H). eexists; reflexivity.
      - rewrite (Done_eq s H). eexists; reflexivity. }
    rewrite E1. apply IH; [eapply wf_step; eassumption | exact F'].
Qed.

(** C5 (as amended): on a fresh histogram every sequence of [Register] and
    [Done] calls runs to the end; after any interleaving the live-count is
    the number of [Register] calls minus the number of [Done] calls modulo
    2^64, it lies in [0, 2^64), and it is that difference itself whenever
    the difference lies in [0, 2^64). *)
Theorem live_count_mod_uint64 (histogram : list Z) (dl : Z) (ls : list label) :
  (Forall (fun l => is_call l = true) ls ->
   exists s', run ls (NewSelfCleaningHistogram histogram dl) = Some s') /\
  (forall s', run ls (NewSelfCleaningHistogram histogram dl) = Some s' ->
     cnt s' = (registers ls - dones ls) mod uint64_mod /\
     0 <= cnt s' < uint64_mod /\
     (0 <= registers ls - dones ls < uint64_mod ->
      cnt s' = registers ls - dones ls)).
Proof.
  split.
  - apply calls_never_fail, wf_New.
  - intros s' E.
    pose proof (run_cnt ls _ s' (wf_New histogram dl) E) as Hc. simpl in Hc.
    split; [exact Hc|]. split.
    + apply (wf_cnt s'). eapply wf_run; [apply wf_New | exact E].
    + intros Hr. rewrite Hc. apply Z.mod_small. exact Hr.
Qed.

Lemma live_count_mod_uint64_witness :
  exists s', run [LRegister; LRegister; LDone] (NewSelfCleaningHistogram [] 5) = Some s' /\
             cnt s' = 1.
Proof.
  destruct (live_count_mod_uint64 [] 5 [LRegister; LRegister; LDone]) as [Hex Hcnt].
  destruct Hex as [s' E].
  - repeat constructor.
  - exists s'. split; [exact E|].
    destruct (Hcnt s' E) as (_ & _ & Hx). apply Hx.
    split; [intros Hd; vm_compute in Hd; discriminate Hd | reflexivity].
Defined.

(** C5 (as stated) fails: a [Done] that no [Register] precedes leaves the
    live-count at 2^64 - 1, not at registers - dones = -1. *)
Lemma done_without_register_wraps :
  exists s', run [LDone] (NewSelfCleaningHistogram [] 0) = Some s' /\
             cnt s' = 18446744073709551615 /\
             registers [LDone] - dones [LDone] = -1 /\
             cnt s' <> registers [LDone] - dones [LDone].
Proof.
  eexists. split; [reflexivity|]. vm_compute.
  split; [reflexivity|]. split; [reflexivity|]. discriminate.
Qed.

(** ** The activity channel *)

(** C7 (as amended): the activity channel h.c is unbuffered in every state
    of the program, so no pulse is ever queued in it; the send of [Register]
    never blocks: it is taken by a [decay] parked in its [select], which
    goes on to stop the timer, and is dropped otherwise. *)
Theorem register_send_unbuffered (s : state) :
  reachable s ->
  c s = make_chan 0 /\
  exists s', Register s = Ret s' /\
    c s' = make_chan 0 /\
    (decay_pc s = InSelect ->
     s' = set_pc (set_cnt s ((cnt s + 1) mod uint64_mod)) AtStop) /\
    (decay_pc s <> InSelect ->
     s' = set_cnt s ((cnt s + 1) mod uint64_mod)).
Proof.
  intros Hr. pose proof (reachable_wf s Hr) as H.
  split; [exact (wf_c s H)|].
  eexists. split; [apply (Register_eq s H)|]. simpl.
  destruct (pc_eqb (decay_pc s) InSelect) eqn:Epc; simpl.
  - split; [exact (wf_c s H)|]. split; [reflexivity|].
    apply pc_eqb_eq in Epc. congruence.
  - split; [exact (wf_c s H)|]. split; [|reflexivity].
    intros Hs. rewrite Hs in Epc. discriminate.
Qed.

Lemma reachable_New (histogram : list Z) (dl : Z) :
  reachable (NewSelfCleaningHistogram histogram dl).
Proof. exists histogram, dl, []. reflexivity. Qed.

Lemma register_send_unbuffered_witness :
  cap (c (NewSelfCleaningHistogram [] 150)) = 0%nat /\
  Register (NewSelfCleaningHistogram [] 150) =
    Ret (set_cnt (NewSelfCleaningHistogram [] 150) 1).
Proof.
  destruct (register_send_unbuffered (NewSelfCleaningHistogram [] 150)
              (reachable_New [] 150)) as [Hc (s' & E & _ & _ & Hd)].
  split; [rewrite Hc; reflexivity|].
  rewrite E. f_equal. apply Hd. discriminate.
Defined.

(** C7 (as stated) fails: the constructor makes h.c with capacity 0, not 1,
    and a [Register] that finds [decay] in Draining leaves nothing queued:
    its pulse is lost, not held for the next [select]. *)
Lemma activity_channel_has_no_buffer :
  cap (c (NewSelfCleaningHistogram [] 150)) = 0%nat /\
  cap (c (NewSelfCleaningHistogram [] 150)) <> 1%nat /\
  exists s1 s2,
    run [LDecay; LRegister; LDecay] (NewSelfCleaningHistogram [] 150) = Some s1 /\
    decay_pc s1 = AtRecvD /\
    Register s1 = Ret s2 /\
    buf (c s2) = 0%nat /\ decay_pc s2 = AtRecvD /\ cnt s2 = 2.
Proof.
  split; [reflexivity|]. split; [discriminate|].
  do 2 eexists. split; [reflexivity|]. split; [reflexivity|].
  split; [reflexivity|]. repeat split.
Qed.

(** ** Calls after Shutdown *)

Lemma decay_step_closed (s s' : state) : decay_step s = Some s' -> closed s' = closed s.
Proof. intros E. decay_cases E. Qed.

Lemma expire_closed (i : nat) (s s' : state) : expire i s = Some s' -> closed s' = closed s.
Proof. intros E. timer_cases E. Qed.

Lemma run_clear_closed (i : nat) (s s' : state) : run_clear i s = Some s' -> closed s' = closed s.
Proof. intros E. timer_cases E. Qed.

Lemma step_closed (l : label) (s s' : state) :
  wf s -> step l s = Some s' -> closed s' = closed s || is_shutdown l.
Proof.
  intros H E. destruct l; simpl in E; simpl; rewrite ?orb_false_r.
  - apply of_result_Some in E. rewrite (Register_eq s H) in E. injection E as <-.
    simpl. destruct (pc_eqb _ _); reflexivity.
  - apply of_result_Some in E. rewrite (Done_eq s H) in E. injection E as <-.
    simpl. destruct (_ && _); reflexivity.
  - apply of_result_Some in E. rewrite (Shutdown_eq s H) in E. injection E as <-.
    destruct (closed s) eqn:Ec; [rewrite Ec; reflexivity|].
    destruct (pc_eqb _ _); reflexivity.
  - injection E as <-. reflexivity.
  - apply decay_step_closed, E.
  - eapply expire_closed, E.
  - eapply run_clear_closed, E.
  - injection E as <-. reflexivity.
Qed.

Lemma run_closed (ls : list label) (s s' : state) :
  wf s -> run ls s = Some s' ->
  closed s' = closed s || existsb is_shutdown ls.
Proof.
  revert s. induction ls as [|l ls IH]; intros s H E; simpl in E.
  - injection E as <-. simpl. rewrite orb_false_r. reflexivity.
  - destruct (step l s) as [s1|] eqn:E1; [|discriminate].
    rewrite (IH s1 (wf_step l s s1 H E1) E), (step_closed l s s1 H E1).
    simpl. rewrite orb_assoc. reflexivity.
Qed.

(** ** Shutdown *)

Lemma Shutdown_closed (s : state) : closed s = true -> Shutdown s = Ret s.
Proof. intros H. unfold Shutdown. rewrite H. reflexivity. Qed.

Lemma Shutdown_closes (s : state) :
  wf s ->
  exists s1, Shutdown s = Ret s1 /\ closed s1 = true /\ chan_closed (q s1) = true.
Proof.
  intros H. eexists. split; [apply (Shutdown_eq s H)|].
  destruct (closed s) eqn:Ec.
  - split; [exact Ec|]. rewrite (wf_q s H). exact Ec.
  - destruct (pc_eqb _ _); split; reflexivity.
Qed.

Lemma Shutdown_times_closed (n : nat) (s : state) :
  closed s = true -> Shutdown_times n s = Ret s.
Proof.
  intros H. induction n as [|n IH]; simpl; [reflexivity|].
  rewrite (Shutdown_closed s H). simpl. exact IH.
Qed.

Lemma not_armed_no_fire (s : state) :
  wf s -> may_be_armed (decay_pc s) = false -> no_timer_can_fire s.
Proof.
  intros H Hp i. unfold expire.
  destruct (timers s !! i) as [[dl st]|] eqn:Ei; [|reflexivity].
  destruct st; try reflexivity.
  destruct (wf_pending s H i _ Ei eq_refl) as [_ Hm]. congruence.
Qed.

Lemma decay_step_other_pc (l : label) (s s' : state) :
  wf s -> step l s = Some s' -> decay_pc s <> InSelect -> l <> LDecay ->
  decay_pc s' = decay_pc s.
Proof.
  intros H E Hp Hl.
  assert (Hb : pc_eqb (decay_pc s) InSelect = false).
  { destruct (pc_eqb (decay_pc s) InSelect) eqn:Eb; [|reflexivity].
    apply pc_eqb_eq in Eb. contradiction. }
  destruct l; simpl in E; try congruence.
  - apply of_result_Some in E. rewrite (Register_eq s H) in E. injection E as <-.
    simpl. rewrite Hb. reflexivity.
  - apply of_result_Some in E. rewrite (Done_eq s H) in E. injection E as <-.
    simpl. destruct (_ && _); reflexivity.
  - apply of_result_Some in E. rewrite (Shutdown_eq s H) in E. injection E as <-.
    destruct (closed s); [reflexivity|]. rewrite Hb. reflexivity.
  - injection E as <-. reflexivity.
  - timer_cases E.
  - timer_cases E.
  - injection E as <-. reflexivity.
Qed.

(** With h.q closed, a [decay] at its [select] takes the quit case. *)
Lemma decay_step_quitting (s : state) :
  wf s -> closed s = true -> quitting (decay_pc s) = true ->
  decay_pc s = Exited \/
  exists s1, decay_step s = Some s1 /\
    (decay_pc s = AtSelect -> decay_pc s1 = AtQuit) /\
    (decay_pc s = AtQuit -> decay_pc s1 = Exited).
Proof.
  intros H Hc Hq. unfold decay_step, recv_ready.
  rewrite (wf_c s H), (wf_q s H), Hc. simpl.
  destruct (decay_pc s); try discriminate.
  - right. eexists. split; [reflexivity|]. split; [reflexivity | discriminate].
  - right. eexists. split; [reflexivity|]. split; [discriminate | reflexivity].
  - left. reflexivity.
Qed.

Lemma quitting_step (l : label) (s s' : state) :
  wf s -> closed s = true -> quitting (decay_pc s) = true ->
  step l s = Some s' -> quitting (decay_pc s') = true.
Proof.
  intros H Hc Hq E.
  destruct (label_eq_dec l LDecay) as [->|Hl].
  - simpl in E. destruct (decay_step_quitting s H Hc Hq) as [Hx|(s1 & E1 & Ha & Hb)].
    + unfold decay_step in E. rewrite Hx in E. discriminate.
    + rewrite E in E1. injection E1 as ->.
      destruct (decay_pc s) eqn:Ep; try discriminate.
      * rewrite Ha; reflexivity.
      * rewrite Hb; reflexivity.
      * unfold decay_step in E. rewrite Ep in E. discriminate.
  - rewrite (decay_step_other_pc l s s' H E); [exact Hq | | exact Hl].
    intros Hs. rewrite Hs in Hq. discriminate.
Qed.

Lemma quitting_run (ls : list label) (s s' : state) :
  wf s -> closed s = true -> quitting (decay_pc s) = true ->
  run ls s = Some s' -> quitting (decay_pc s') = true.
Proof.
  revert s. induction ls as [|l ls IH]; intros s H Hc Hq E; simpl in E.
  - injection E as <-. exact Hq.
  - destruct (step l s) as [s1|] eqn:E1; [|discriminate].
    apply (IH s1); [eapply wf_step; eassumption | | | exact E].
    + rewrite (step_closed l s s1 H E1), Hc. reflexivity.
    + eapply quitting_step; eassumption.
Qed.

Lemma quitting_exits (s : state) :
  wf s -> closed s = true -> quitting (decay_pc s) = true -> exits_within_two s.
Proof.
  intros H Hc Hq.
  destruct (decay_step_quitting s H Hc Hq) as [Hx|(s1 & E1 & Ha & Hb)]; [left; exact Hx|].
  right. exists s1. split; [exact E1|].
  destruct (decay_pc s) eqn:Ep; try discriminate.
  - right.
    assert (H1 : wf s1) by (eapply wf_decay_step; eassumption).
    assert (Hc1 : closed s1 = true) by (rewrite (decay_step_closed s s1 E1); exact Hc).
    assert (Hq1 : quitting (decay_pc s1) = true) by (rewrite Ha; reflexivity).
    destruct (decay_step_quitting s1 H1 Hc1 Hq1) as [Hx|(s2 & E2 & _ & Hb2)].
    + rewrite Ha in Hx; [discriminate | reflexivity].
    + exists s2. split; [exact E2|]. apply Hb2, Ha. reflexivity.
  - left. apply Hb. reflexivity.
  - unfold decay_step in E1. rewrite Ep in E1. discriminate.
Qed.

(** C8 (as amended): for every N >= 1, N calls of [Shutdown] in a row
    return, without panic, the state that one call returns: the closed flag
    is set and h.q is closed by the first call and a further call changes
    nothing, now and after any continuation.  No timer can fire once
    [decay] has returned; and when [Shutdown] finds [decay] in its outer
    wait, [decay] is from then on always within two enabled statements of
    returning, whatever is interleaved. *)
Theorem shutdown_idempotent (s : state) (n : nat) :
  reachable s ->
  exists s1,
    Shutdown s = Ret s1 /\
    Shutdown_times (S n) s = Ret s1 /\
    closed s1 = true /\ chan_closed (q s1) = true /\
    (forall ls s3, run ls s1 = Some s3 ->
       Shutdown s3 = Ret s3 /\
       (decay_pc s3 = Exited -> no_timer_can_fire s3)) /\
    (outer_wait (decay_pc s) = true ->
     forall ls s3, run ls s1 = Some s3 -> exits_within_two s3).
Proof.
  intros Hr. pose proof (reachable_wf s Hr) as H.
  destruct (Shutdown_closes s H) as (s1 & E1 & Hc1 & Hq1).
  pose proof (wf_Shutdown s s1 H E1) as H1.
  exists s1. split; [exact E1|]. split.
  { simpl. rewrite E1. simpl. apply Shutdown_times_closed, Hc1. }
  split; [exact Hc1|]. split; [exact Hq1|]. split.
  - intros ls s3 E3.
    pose proof (wf_run ls s1 s3 H1 E3) as H3. split.
    + apply Shutdown_closed. rewrite (run_closed ls s1 s3 H1 E3), Hc1. reflexivity.
    + intros Hx. apply (not_armed_no_fire s3 H3). rewrite Hx. reflexivity.
  - intros Ho ls s3 E3.
    assert (Hq : quitting (decay_pc s1) = true).
    { rewrite (Shutdown_eq s H) in E1. injection E1 as <-.
      destruct (closed s) eqn:Ec.
      - destruct (decay_pc s) eqn:Ep; try discriminate; [reflexivity|].
        destruct (wf_select s H Ec Ep).
      - destruct (pc_eqb (decay_pc s) InSelect) eqn:Eb; simpl; [reflexivity|].
        destruct (decay_pc s); try discriminate; reflexivity. }
    apply quitting_exits.
    + eapply wf_run; eassumption.
    + rewrite (run_closed ls s1 s3 H1 E3), Hc1. reflexivity.
    + eapply quitting_run; eassumption.
Qed.

Lemma shutdown_idempotent_witness :
  exists s1,
    Shutdown_times 3 (NewSelfCleaningHistogram [] 150) = Ret s1 /\
    Shutdown (NewSelfCleaningHistogram [] 150) = Ret s1 /\
    exits_within_two s1.
Proof.
  destruct (shutdown_idempotent (NewSelfCleaningHistogram [] 150) 2
              (reachable_New [] 150)) as (s1 & E1 & En & _ & _ & _ & Hx).
  exists s1. split; [exact En|]. split; [exact E1|].
  apply (Hx eq_refl [] s1 eq_refl).
Defined.

(** C8 (as stated) fails in its last part: [Shutdown] returns as soon as it
    has closed h.q, and a timer whose deadline has come can still fire, and
    clear the pool, before [decay] runs its quit branch. *)
Lemma timer_fires_after_shutdown_returns :
  exists s1 s2 s3 s4,
    run [LDecay; LRegister; LDecay; LUpdate 7; LDone; LDecay; LDecay; LDecay;
         LTick; LTick] (NewSelfCleaningHistogram [] 2) = Some s1 /\
    Shutdown s1 = Ret s2 /\ pool s2 = [7] /\
    expire 0 s2 = Some s3 /\
    run_clear 0 s3 = Some s4 /\ pool s4 = [] /\ clears s4 = 1%nat.
Proof.
  do 4 eexists. split; [vm_compute; reflexivity|].
  split; [vm_compute; reflexivity|]. split; [reflexivity|].
  split; [vm_compute; reflexivity|]. split; [vm_compute; reflexivity|].
  split; reflexivity.
Qed.

(** ** Shutdown while [decay] is in Draining *)

(** A [decay] blocked at [<-h.d] moves only when a [Done] brings the
    live-count to zero: nothing else fills h.d, and h.q is not among the
    channels it waits for there. *)
Lemma draining_needs_done (ls : list label) (s s' : state) :
  decay_pc s = AtRecvD -> recv_ready (d s) = false ->
  Forall (fun l => is_done l = false) ls ->
  run ls s = Some s' ->
  decay_pc s' = AtRecvD /\ recv_ready (d s') = false.
Proof.
  revert s. induction ls as [|l ls IH]; intros s Hp Hd F E; simpl in E.
  - injection E as <-. split; assumption.
  - inversion F as [|? ? Hl F']; subst.
    destruct (step l s) as [s1|] eqn:E1; [|discriminate].
    apply (IH s1); [| |exact F'|exact E].
    all: destruct s as [pool0 clears0 c0 q0 d0 closed0 cnt0 delay0 pc0 t0 timers0 now0];
      simpl in Hp, Hd; subst pc0;
      destruct l; try discriminate; simpl in E1.
    all: try (injection E1 as <-; simpl; first [reflexivity | assumption]).
    all: unfold Register, Shutdown, try_send, close_chan, decay_step, expire, run_clear in E1;
      simpl in E1; rewrite ?Hd in E1;
      repeat match type of E1 with
      | context [if ?b then _ else _] => destruct b
      | context [match ?x with _ => _ end] => destruct x
      end; simpl in E1; try discriminate;
      injection E1 as <-; simpl; first [reflexivity | assumption].
Qed.

(** C2 (the claim fails on the code): when [Shutdown] finds [decay] in
    Draining with h.d empty, then in every continuation without a [Done]
    the goroutine is still blocked at [<-h.d]: it has not observed the
    quit signal, it has no step to take, and it has not returned. *)
Theorem shutdown_in_draining_never_exits (s s1 s2 : state) (ls : list label) :
  reachable s ->
  decay_pc s = AtRecvD -> buf (d s) = 0%nat ->
  Shutdown s = Ret s1 ->
  Forall (fun l => is_done l = false) ls ->
  run ls s1 = Some s2 ->
  closed s2 = true /\ decay_pc s2 = AtRecvD /\ decay_step s2 = None /\
  decay_pc s2 <> Exited.
Proof.
  intros Hr Hp Hb E1 F E2. pose proof (reachable_wf s Hr) as H.
  pose proof (wf_Shutdown s s1 H E1) as H1.
  assert (Hc1 : closed s1 = true).
  { destruct (Shutdown_closes s H) as (x & Ex & Hx & _). congruence. }
  assert (Hs1 : decay_pc s1 = AtRecvD /\ recv_ready (d s1) = false).
  { rewrite (Shutdown_eq s H) in E1. injection E1 as <-.
    unfold recv_ready.
    destruct (closed s); [|rewrite Hp; simpl];
      rewrite (wf_d_open s H), Hb; split; first [exact Hp | reflexivity]. }
  destruct Hs1 as [Hp1 Hd1].
  destruct (draining_needs_done ls s1 s2 Hp1 Hd1 F E2) as [Hp2 Hd2].
  split; [rewrite (run_closed ls s1 s2 H1 E2), Hc1; reflexivity|].
  split; [exact Hp2|]. split.
  - unfold decay_step. rewrite Hp2, Hd2. reflexivity.
  - rewrite Hp2. discriminate.
Qed.

Lemma reachable_draining_example : reachable draining_example.
Proof. exists [], 150, [LDecay; LRegister; LDecay]. vm_compute. reflexivity. Qed.

Lemma shutdown_in_draining_never_exits_witness :
  exists s1 s2,
    Shutdown draining_example = Ret s1 /\
    run [LTick; LRegister; LShutdown; LUpdate 7; LTick] s1 = Some s2 /\
    decay_pc s2 = AtRecvD /\ decay_step s2 = None.
Proof.
  eexists. eexists.
  split; [vm_compute; reflexivity|]. split; [vm_compute; reflexivity|].
  match goal with |- decay_pc ?s2 = _ /\ _ =>
    destruct (shutdown_in_draining_never_exits draining_example _ s2
                [LTick; LRegister; LShutdown; LUpdate 7; LTick]
                reachable_draining_example eq_refl eq_refl eq_refl
                ltac:(repeat constructor) eq_refl) as (_ & Hp & Hs & _)
  end.
  split; [exact Hp | exact Hs].
Defined.

(** ** Clearing while a user is registered *)

(** C1 (the claim fails on the code): a [Register] that comes after the
    [Done] of the last user and before [decay] is back in its [select] is
    dropped; [decay] arms the timer all the same, and after the delay the
    pool is cleared although the live-count is 1, no later zero-crossing
    has occurred and the new user's sample is in the pool. *)
Theorem clear_despite_registration :
  exists s1 s2 s3 s4,
    run [LDecay; LRegister; LDecay; LUpdate 7; LDone]
        (NewSelfCleaningHistogram [] 2) = Some s1 /\
    cnt s1 = 0 /\ now s1 = 0 /\ timers s1 = [] /\
    Register s1 = Ret s2 /\ cnt s2 = 1 /\ now s2 = 0 /\
    run [LDecay; LDecay; LDecay; LUpdate 8; LTick; LTick] s2 = Some s3 /\
    cnt s3 = 1 /\ now s3 = 2 /\ pool s3 = [8; 7] /\ clears s3 = 0%nat /\
    timers s3 = [Timer 2 TPending] /\
    run [LExpire 0; LClear 0] s3 = Some s4 /\
    cnt s4 = 1 /\ now s4 = 2 /\ pool s4 = [] /\ clears s4 = 1%nat.
Proof.
  do 4 eexists.
  split; [vm_compute; reflexivity|]. do 3 (split; [reflexivity|]).
  split; [vm_compute; reflexivity|]. do 2 (split; [reflexivity|]).
  split; [vm_compute; reflexivity|]. do 5 (split; [reflexivity|]).
  split; [vm_compute; reflexivity|]. repeat split.
Qed.

(** ** Clearing after the idle delay *)

(** While nobody registers or shuts down, a [decay] in its outer wait stays
    there and its pending timer stays pending. *)
Lemma armed_survives_quiet (ls : list label) (s s' : state) (i : nat) (dl : Z) :
  wf s -> closed s = false -> outer_wait (decay_pc s) = true ->
  timers s !! i = Some (Timer dl TPending) ->
  Forall (fun l => is_quiet l = true) ls ->
  run ls s = Some s' ->
  timers s' !! i = Some (Timer dl TPending) /\ cnt s' = cnt s /\
  (forall v, In v (pool s) -> In v (pool s')).
Proof.
  revert s. induction ls as [|l ls IH]; intros s H Hc Ho Ht F E; simpl in E.
  - injection E as <-. auto.
  - inversion F as [|? ? Hl F']; subst.
    destruct (step l s) as [s1|] eqn:E1; [|discriminate].
    pose proof (wf_step l s s1 H E1) as H1.
    assert (Hs1 : closed s1 = false /\ outer_wait (decay_pc s1) = true /\
                  timers s1 !! i = Some (Timer dl TPending) /\ cnt s1 = cnt s /\
                  (forall v, In v (pool s) -> In v (pool s1))).
    { destruct l; try discriminate; simpl in E1.
      - injection E1 as <-. simpl. repeat split; auto.
      - unfold decay_step, recv_ready in E1.
        rewrite (wf_c s H), (wf_q s H), Hc in E1. simpl in E1.
        destruct (decay_pc s); try discriminate.
        injection E1 as <-. simpl. repeat split; auto.
      - injection E1 as <-. simpl. repeat split; auto. }
    destruct Hs1 as (Hc1 & Ho1 & Ht1 & Hn1 & Hp1).
    destruct (IH s1 H1 Hc1 Ho1 Ht1 F' E) as (Ht' & Hn' & Hp').
    split; [exact Ht'|]. split; [congruence|]. auto.
Qed.

Lemma run_quiet_now (ls : list label) (s s' : state) :
  Forall (fun l => is_quiet l = true) ls -> run ls s = Some s' -> now s <= now s'.
Proof.
  revert s. induction ls as [|l ls IH]; intros s F E; simpl in E.
  - injection E as <-. lia.
  - inversion F as [|? ? Hl F']; subst.
    destruct (step l s) as [s1|] eqn:E1; [|discriminate].
    specialize (IH s1 F' E).
    enough (now s <= now s1) by lia.
    destruct l; try discriminate; simpl in E1.
    + injection E1 as <-. simpl. lia.
    + unfold decay_step, stop_if_set, arm in E1.
      destruct (decay_pc s); try discriminate;
        repeat match type of E1 with
        | context [if ?b then _ else _] => destruct b
        end; try discriminate; injection E1 as <-; simpl; try lia;
        destruct (t s); simpl; lia.
    + injection E1 as <-. simpl. lia.
Qed.

(** A pending timer whose deadline has come fires, and its function
    empties the pool. *)
Lemma pending_timer_clears (s : state) (i : nat) (dl : Z) :
  timers s !! i = Some (Timer dl TPending) -> dl <= now s ->
  exists s', run [LExpire i; LClear i] s = Some s' /\
             pool s' = [] /\ cnt s' = cnt s /\ clears s' = S (clears s).
Proof.
  intros Ht Hd. simpl. unfold expire. rewrite Ht.
  replace (dl <=? now s) with true by (symmetry; apply Z.leb_le; exact Hd).
  unfold run_clear. simpl.
  rewrite list_lookup_insert_eq by (eapply lookup_lt_Some; exact Ht).
  eexists. split; [reflexivity|]. simpl. auto.
Qed.

(** From Draining with one user left: its [Done] queues the drained signal,
    [decay] receives it and arms the timer for [now + delay]. *)
Lemma done_arms_timer (s sA : state) :
  wf s -> closed s = false -> decay_pc s = AtRecvD -> buf (d s) = 0%nat ->
  cnt s = 1 ->
  run [LDone; LDecay; LDecay] s = Some sA ->
  wf sA /\ closed sA = false /\ decay_pc sA = AtSelect /\ cnt sA = 0 /\
  now sA = now s /\ pool sA = pool s /\
  timers sA !! length (timers s) = Some (Timer (now s + delay s) TPending).
Proof.
  intros H Hc Hp Hb Hn E.
  split; [eapply wf_run; eassumption|].
  pose proof (wf_d_cap s H) as Hcap. pose proof (wf_d_open s H) as Hopen.
  destruct s as [pool0 clears0 c0 q0 [dcap dbuf dcl] closed0 cnt0 delay0 pc0 t0 timers0 now0].
  simpl in *. subst.
  assert (Hm : (1 + (uint64_mod - 1)) mod uint64_mod = 0) by reflexivity.
  unfold step, Done, try_send in E. simpl in E. rewrite Hm in E. simpl in E.
  injection E as <-. simpl.
  repeat split; try reflexivity.
  rewrite lookup_app_r by lia. rewrite Nat.sub_diag. reflexivity.
Qed.

(** C6 (as amended): when the [Done] of the last registered user finds
    [decay] in Draining, [decay] arms the timer; if from then on nobody
    registers or shuts down while time passes and samples arrive, then once
    the delay has elapsed the timer fires and its [Clear] leaves the pool
    empty: Count() == 0. *)
Theorem idle_delay_clears (s s2 : state) (ls : list label) :
  reachable s ->
  closed s = false -> decay_pc s = AtRecvD -> buf (d s) = 0%nat -> cnt s = 1 ->
  Forall (fun l => is_quiet l = true) ls ->
  run ([LDone; LDecay; LDecay] ++ ls) s = Some s2 ->
  now s + delay s <= now s2 ->
  exists s3,
    run [LExpire (length (timers s)); LClear (length (timers s))] s2 = Some s3 /\
    Count s3 = 0 /\ cnt s3 = 0.
Proof.
  intros Hr Hc Hp Hb Hn F E Hd. pose proof (reachable_wf s Hr) as H.
  rewrite run_app in E.
  destruct (run [LDone; LDecay; LDecay] s) as [sA|] eqn:EA; [|discriminate].
  destruct (done_arms_timer s sA H Hc Hp Hb Hn EA)
    as (HA & HcA & HpA & HnA & _ & _ & HtA).
  destruct (armed_survives_quiet ls sA s2 _ _ HA HcA
              ltac:(rewrite HpA; reflexivity) HtA F E) as (Ht2 & Hn2 & _).
  destruct (pending_timer_clears s2 _ _ Ht2 Hd) as (s3 & E3 & Hp3 & Hn3 & _).
  exists s3. split; [exact E3|]. split.
  - unfold Count. rewrite Hp3. reflexivity.
  - congruence.
Qed.

Lemma idle_delay_clears_witness :
  exists s3,
    run ([LDone; LDecay; LDecay] ++ (LDecay :: LUpdate 9 :: repeat LTick 150) ++
         [LExpire 0; LClear 0]) draining_example = Some s3 /\
    Count s3 = 0.
Proof.
  assert (Hex : exists s2, run ([LDone; LDecay; LDecay] ++
                                 (LDecay :: LUpdate 9 :: repeat LTick 150))
                               draining_example = Some s2 /\
                           now draining_example + delay draining_example <= now s2).
  { eexists. split; [vm_compute; reflexivity|]. vm_compute. discriminate. }
  destruct Hex as (s2 & E2 & Hd).
  destruct (idle_delay_clears draining_example s2
              (LDecay :: LUpdate 9 :: repeat LTick 150)
              reachable_draining_example eq_refl eq_refl eq_refl eq_refl
              ltac:(repeat constructor) E2 Hd) as (s3 & E3 & Hc3 & _).
  exists s3. split; [|exact Hc3].
  rewrite app_assoc, run_app, E2. exact E3.
Defined.

(** Without a [Register], [decay] never leaves its outer wait except to
    quit, no timer is ever created, and the pool only grows. *)
Lemma unregistered_keeps_pool (ls : list label) (s s' : state) :
  wf s -> timers s = [] -> t s = None -> never_armed (decay_pc s) = true ->
  Forall (fun l => is_register l = false) ls ->
  run ls s = Some s' ->
  timers s' = [] /\ (length (pool s) <= length (pool s'))%nat.
Proof.
  revert s. induction ls as [|l ls IH]; intros s H Ht Hv Hp F E; simpl in E.
  - injection E as <-. split; [exact Ht | lia].
  - inversion F as [|? ? Hl F']; subst.
    destruct (step l s) as [s1|] eqn:E1; [|discriminate].
    pose proof (wf_step l s s1 H E1) as H1.
    assert (Hs1 : timers s1 = [] /\ t s1 = None /\ never_armed (decay_pc s1) = true /\
                  (length (pool s) <= length (pool s1))%nat).
    { destruct l; try discriminate; simpl in E1.
      - apply of_result_Some in E1. rewrite (Done_eq s H) in E1. injection E1 as <-.
        simpl. destruct (_ && _); simpl; auto.
      - apply of_result_Some in E1. rewrite (Shutdown_eq s H) in E1. injection E1 as <-.
        destruct (closed s); [auto|]. destruct (pc_eqb _ _); simpl; auto.
      - injection E1 as <-. simpl. auto.
      - unfold decay_step, recv_ready, stop_if_set in E1.
        rewrite (wf_c s H), Hv in E1. simpl in E1.
        destruct (decay_pc s); try discriminate;
          repeat match type of E1 with
          | context [if ?b then _ else _] => destruct b
          end; injection E1 as <-; simpl; auto.
      - unfold expire in E1. rewrite Ht in E1. discriminate.
      - unfold run_clear in E1. rewrite Ht in E1. discriminate.
      - injection E1 as <-. simpl. auto. }
    destruct Hs1 as (Ht1 & Hv1 & Hp1 & Hl1).
    destruct (IH s1 H1 Ht1 Hv1 Hp1 F' E) as [Ht' Hl'].
    split; [exact Ht' | lia].
Qed.

(** C6 (as stated) fails for the freshly constructed cleaner: with the
    live-count at zero for longer than the delay and no [Register], a sample
    inserted into it is still there, and no interleaving without a
    [Register] ever empties the pool, because [decay] arms its timer only
    after a [Register] and a [Done]. *)
Lemma fresh_histogram_keeps_samples :
  (exists s,
     run (LDecay :: LUpdate 7 :: repeat LTick 200)
         (NewSelfCleaningHistogram [] 150) = Some s /\
     cnt s = 0 /\ delay s = 150 /\ now s = 200 /\ timers s = [] /\ Count s = 1) /\
  (forall ls s,
     Forall (fun l => is_register l = false) ls ->
     run ls (Update 7 (NewSelfCleaningHistogram [] 150)) = Some s ->
     Count s <> 0).
Proof.
  split.
  - eexists. split; [vm_compute; reflexivity|]. repeat split.
  - intros ls s F E.
    destruct (unregistered_keeps_pool ls _ s
                (wf_Update 7 _ (wf_New [] 150)) eq_refl eq_refl eq_refl F E)
      as [_ Hl].
    unfold Count, samples_Count. simpl in Hl. lia.
Qed.

(** ** Metered streams *)

Section MeteredFacts.

Context {E : Type}.
Variable time_now : E -> Z * E.

Lemma Reader_Close_closed (mr : Reader) (w : @world E) :
  reader_closed mr = true -> Reader_Close mr w = (None, mr, w).
Proof. intros H. unfold Reader_Close. rewrite H. reflexivity. Qed.

Lemma Writer_Close_closed (mw : Writer) (w : @world E) :
  writer_closed mw = true -> Writer_Close mw w = (None, mw, w).
Proof. intros H. unfold Writer_Close. rewrite H. reflexivity. Qed.

Lemma Reader_Close_times_closed (n : nat) (mr : Reader) (w : @world E) :
  reader_closed mr = true ->
  Reader_Close_times n mr w = (repeat None n, mr, w).
Proof.
  intros H. induction n as [|n IH]; simpl; [reflexivity|].
  rewrite (Reader_Close_closed mr w H), IH. reflexivity.
Qed.

Lemma Writer_Close_times_closed (n : nat) (mw : Writer) (w : @world E) :
  writer_closed mw = true ->
  Writer_Close_times n mw w = (repeat None n, mw, w).
Proof.
  intros H. induction n as [|n IH]; simpl; [reflexivity|].
  rewrite (Writer_Close_closed mw w H), IH. reflexivity.
Qed.

Lemma Reader_Close_open (st : stream) (h : histogram) (w : @world E) :
  Reader_Close (mkReader st h false) w =
    (fst (underlying_close st (env w)), mkReader st h true,
     {| env := snd (underlying_close st (env w));
        log := log w ++ close_calls h st |}).
Proof.
  unfold Reader_Close, underlying_close, close_calls, call_close, record_call. simpl.
  destruct w as [e l]. simpl.
  destruct (is_registrar h), (closer st) as [f|]; simpl;
    try destruct (f e); simpl; rewrite <- ?app_assoc, ?app_nil_r; reflexivity.
Qed.

Lemma Writer_Close_open (st : stream) (h : histogram) (w : @world E) :
  Writer_Close (mkWriter st h false) w =
    (fst (underlying_close st (env w)), mkWriter st h true,
     {| env := snd (underlying_close st (env w));
        log := log w ++ close_calls h st |}).
Proof.
  unfold Writer_Close, underlying_close, close_calls, call_close, record_call. simpl.
  destruct w as [e l]. simpl.
  destruct (is_registrar h), (closer st) as [f|]; simpl;
    try destruct (f e); simpl; rewrite <- ?app_assoc, ?app_nil_r; reflexivity.
Qed.

(** C3: closing a wrapped Reader or Writer N = n + 1 times calls [Done]
    once when the histogram is a Registrar (not at all otherwise) and the
    Close of the wrapped stream once when it has one (not at all
    otherwise), in this order; the first Close returns what the wrapped
    Close returned, error or not, and every later Close returns nil and
    does nothing. *)
Theorem close_times_once (st : stream) (h : histogram) (w : @world E) (n : nat) :
  let w0 := snd (NewReader st h w) in
  let after :=
    {| env := snd (underlying_close st (env w0));
       log := log w0 ++ close_calls h st |} in
  snd (NewWriter st h w) = w0 /\
  Reader_Close_times (S n) (fst (NewReader st h w)) w0 =
    (fst (underlying_close st (env w0)) :: repeat None n,
     mkReader st h true, after) /\
  Writer_Close_times (S n) (fst (NewWriter st h w)) w0 =
    (fst (underlying_close st (env w0)) :: repeat None n,
     mkWriter st h true, after) /\
  count_call CallDone (close_calls h st) = (if is_registrar h then 1 else 0)%nat /\
  count_call CallClose (close_calls h st) =
    (match closer st with Some _ => 1 | None => 0 end)%nat.
Proof.
  assert (HR : fst (NewReader st h w) = mkReader st h false)
    by (unfold NewReader; destruct (is_registrar h); reflexivity).
  assert (HW : fst (NewWriter st h w) = mkWriter st h false)
    by (unfold NewWriter; destruct (is_registrar h); reflexivity).
  cbv zeta. rewrite HR, HW. split; [|split; [|split; [|split]]].
  - unfold NewWriter, NewReader. destruct (is_registrar h); reflexivity.
  - simpl. rewrite Reader_Close_open.
    rewrite Reader_Close_times_closed by reflexivity. reflexivity.
  - simpl. rewrite Writer_Close_open.
    rewrite Writer_Close_times_closed by reflexivity. reflexivity.
  - unfold close_calls, count_call.
    destruct (is_registrar h), (closer st); reflexivity.
  - unfold close_calls, count_call.
    destruct (is_registrar h), (closer st); reflexivity.
Qed.

(** C4 (as amended): with a non-nil histogram, Read and Write return the
    byte count and the error of the wrapped call unchanged, and they insert
    one sample, the nanoseconds between the clock readings taken before and
    after the wrapped call, if and only if the byte count is positive,
    whatever the error is. *)
Theorem transfer_sampled_iff_positive
  (st : stream) (h : histogram) (b : bool) (p : list byte) (w : @world E) :
  is_nil h = false ->
  let start := fst (time_now (env w)) in
  let r := xfer st p (snd (time_now (env w))) in
  let n := fst (fst r) in
  let fin := fst (time_now (snd r)) in
  let after :=
    if (0 <? n)%Z
    then {| env := snd (time_now (snd r));
            log := log w ++ [CallXfer p; CallUpdate (time_Sub fin start)] |}
    else {| env := snd r; log := log w ++ [CallXfer p] |} in
  Reader_Read time_now (mkReader st h b) p w = Ret (fst r, after) /\
  Writer_Write time_now (mkWriter st h b) p w = Ret (fst r, after).
Proof.
  intros Hn. cbv zeta.
  unfold Reader_Read, Writer_Write, time_Now, call_xfer, call_Update, record_call.
  simpl. rewrite Hn. simpl.
  destruct w as [e l]. simpl.
  destruct (time_now e) as [t0 e1]. simpl.
  destruct (xfer st p e1) as [[n err] e2]. simpl.
  destruct (0 <? n)%Z; simpl; [|split; reflexivity].
  destruct (time_now e2) as [t1 e3]. simpl.
  rewrite <- app_assoc. split; reflexivity.
Qed.

(** C9: with a nil histogram the constructors register nothing, Read and
    Write return what the wrapped call returns and call nothing else (not
    even the clock), and Close calls the Close of the wrapped stream when it
    has one and nothing else; none of them panics. *)
Theorem nil_histogram_is_transparent
  (st : stream) (b : bool) (p : list byte) (w : @world E) :
  NewReader st NilHistogram w = (mkReader st NilHistogram false, w) /\
  NewWriter st NilHistogram w = (mkWriter st NilHistogram false, w) /\
  Reader_Read time_now (mkReader st NilHistogram b) p w =
    Ret (fst (xfer st p (env w)),
         {| env := snd (xfer st p (env w)); log := log w ++ [CallXfer p] |}) /\
  Writer_Write time_now (mkWriter st NilHistogram b) p w =
    Ret (fst (xfer st p (env w)),
         {| env := snd (xfer st p (env w)); log := log w ++ [CallXfer p] |}) /\
  Reader_Close (mkReader st NilHistogram false) w =
    (fst (underlying_close st (env w)), mkReader st NilHistogram true,
     {| env := snd (underlying_close st (env w));
        log := log w ++ match closer st with
                        | Some _ => [CallClose]
                        | None => []
                        end |}) /\
  Writer_Close (mkWriter st NilHistogram false) w =
    (fst (underlying_close st (env w)), mkWriter st NilHistogram true,
     {| env := snd (underlying_close st (env w));
        log := log w ++ match closer st with
                        | Some _ => [CallClose]
                        | None => []
                        end |}).
Proof.
  split; [reflexivity|]. split; [reflexivity|].
  split; [|split; [|split]].
  - unfold Reader_Read, call_xfer. simpl.
    destruct (xfer st p (env w)) as [[n err] e2]. simpl.
    rewrite andb_false_r. reflexivity.
  - unfold Writer_Write, call_xfer. simpl.
    destruct (xfer st p (env w)) as [[n err] e2]. simpl.
    rewrite andb_false_r. reflexivity.
  - rewrite Reader_Close_open. reflexivity.
  - rewrite Writer_Close_open. reflexivity.
Qed.

End MeteredFacts.

Lemma transfer_sampled_iff_positive_witness :
  Reader_Read example_clock (mkReader short_stream PlainHistogram false) []
    {| env := 0%Z; log := [] |} =
  Ret ((5%Z, Some (Err "unexpected EOF")),
       {| env := 12%Z; log := [CallXfer []; CallUpdate 11] |}).
Proof.
  destruct (transfer_sampled_iff_positive example_clock short_stream
              PlainHistogram false [] {| env := 0%Z; log := [] |} eq_refl)
    as [HR _].
  exact HR.
Defined.

(** C4 (as stated) fails: a Read that returns n = 5 together with an error
    does record a sample. *)
Lemma failed_read_is_sampled :
  exists w',
    Reader_Read example_clock (mkReader short_stream PlainHistogram false) []
      {| env := 0%Z; log := [] |} =
    Ret ((5%Z, Some (Err "unexpected EOF")), w') /\
    In (CallUpdate 11) (log w').
Proof.
  eexists. split; [vm_compute; reflexivity|]. simpl. auto.
Qed.

(** Three Closes of a Reader over a stream whose Close fails, with a
    Registrar attached: the error comes back once, then nil. *)
Example close_thrice_after_error :
  Reader_Close_times 3
    (fst (NewReader short_stream RegistrarHistogram {| env := 0%Z; log := [] |}))
    (snd (NewReader short_stream RegistrarHistogram {| env := 0%Z; log := [] |})) =
  ([Some (Err "already closed"); None; None],
   mkReader short_stream RegistrarHistogram true,
   {| env := 0%Z; log := [CallRegister; CallDone; CallClose] |}).
Proof. vm_compute. reflexivity. Qed.

(** ** Calls after Shutdown, and what follows them *)





(** * Further properties of the package *)

Import Usage.

(** ** The timer of [decay] *)

Lemma reachable_armed_example : reachable armed_example.
Proof.
  exists [], 150,
    [LDecay; LRegister; LDecay; LUpdate 7; LDone; LDecay; LDecay; LDecay].
  vm_compute. reflexivity.
Qed.

(** X1: [decay] never has two timers armed: in every state of the program
    at most one timer is pending, it is the one held in the variable [t],
    and [decay] is then in its outer wait or about to stop that timer. *)
Theorem one_pending_timer (s : state) (i j : nat) (ti tj : timer) :
  reachable s ->
  timers s !! i = Some ti -> status ti = TPending ->
  timers s !! j = Some tj -> status tj = TPending ->
  i = j /\ t s = Some i /\ may_be_armed (decay_pc s) = true.
Proof.
  intros Hr Hi Hpi Hj Hpj. pose proof (reachable_wf s Hr) as H.
  destruct (wf_pending s H i ti Hi Hpi) as [Hti Hm].
  destruct (wf_pending s H j tj Hj Hpj) as [Htj _].
  split; [congruence|]. split; assumption.
Qed.

Lemma one_pending_timer_witness :
  t armed_example = Some 0%nat /\ decay_pc armed_example = InSelect.
Proof.
  destruct (one_pending_timer armed_example 0 0 (Timer 150 TPending)
              (Timer 150 TPending) reachable_armed_example
              eq_refl eq_refl eq_refl eq_refl) as (_ & Ht & _).
  split; [exact Ht | reflexivity].
Defined.

(** X2: once [decay] has received an activity pulse and run its
    [t.Stop()], and until it arms the next timer, no timer is pending: while
    it waits for the drained signal nothing can expire.  The same holds
    after it has returned. *)
Theorem draining_is_disarmed (s : state) :
  reachable s ->
  decay_pc s = AtRecvD \/ decay_pc s = AtArm \/ decay_pc s = Exited ->
  (forall i tm, timers s !! i = Some tm -> status tm <> TPending) /\
  no_timer_can_fire s.
Proof.
  intros Hr Hp. pose proof (reachable_wf s Hr) as H.
  assert (Hm : may_be_armed (decay_pc s) = false)
    by (destruct Hp as [-> | [-> | ->]]; reflexivity).
  split.
  - intros i tm Hi Hs. destruct (wf_pending s H i tm Hi Hs) as [_ Hx]. congruence.
  - apply not_armed_no_fire; assumption.
Qed.

Lemma draining_is_disarmed_witness : no_timer_can_fire draining_example.
Proof.
  apply (draining_is_disarmed draining_example reachable_draining_example).
  left. reflexivity.
Defined.

(** ** The delay *)

Lemma stop_timer_deadline (tm : timer) : deadline (stop_timer tm) = deadline tm.
Proof. destruct tm as [dl []]; reflexivity. Qed.

Lemma stop_timer_fired (tm : timer) : has_fired (stop_timer tm) = has_fired tm.
Proof. destruct tm as [dl []]; reflexivity. Qed.

(** A step changes the status of timers, never their deadline, and never
    removes one. *)
Lemma step_keeps_deadline (l : label) (s s' : state) (i : nat) (tm : timer) :
  step l s = Some s' -> timers s !! i = Some tm ->
  exists tm', timers s' !! i = Some tm' /\ deadline tm' = deadline tm.
Proof.
  intros E Hi.
  assert (Hsame : timers s' = timers s -> exists tm', timers s' !! i = Some tm' /\
                                                       deadline tm' = deadline tm)
    by (intros ->; eauto).
  assert (Hstop : exists tm', timers (stop_if_set s) !! i = Some tm' /\
                              deadline tm' = deadline tm).
  { unfold stop_if_set. destruct (t s) as [j|]; simpl; [|eauto].
    destruct (decide (i = j)) as [->|Hne].
    - rewrite list_lookup_alter_eq, Hi. simpl. eexists. split; [reflexivity|].
      apply stop_timer_deadline.
    - rewrite list_lookup_alter_ne by congruence. eauto. }
  destruct l; simpl in E.
  - unfold Register, try_send in E. simpl in E.
    split_ifs E; simpl in E; try discriminate E; injection E as <-; eauto.
  - unfold Done, try_send in E. simpl in E.
    split_ifs E; simpl in E; try discriminate E; injection E as <-; eauto.
  - unfold Shutdown, close_chan in E. simpl in E.
    split_ifs E; simpl in E; try discriminate E; injection E as <-; eauto.
  - injection E as <-. eauto.
  - unfold decay_step in E. destruct (decay_pc s); try discriminate E;
      split_ifs E; try discriminate E; injection E as <-; simpl; eauto.
    unfold arm. simpl. rewrite lookup_app_l by (eapply lookup_lt_Some; exact Hi).
    eauto.
  - unfold expire in E.
    destruct (timers s !! i0) as [[dl []]|] eqn:E0; try discriminate E.
    split_ifs E; try discriminate E. injection E as <-. simpl.
    destruct (decide (i = i0)) as [->|Hne].
    + rewrite list_lookup_insert_eq by (eapply lookup_lt_Some; exact E0).
      eexists. split; [reflexivity|]. rewrite Hi in E0. injection E0 as ->. reflexivity.
    + rewrite list_lookup_insert_ne by congruence. eauto.
  - unfold run_clear in E.
    destruct (timers s !! i0) as [[dl []]|] eqn:E0; try discriminate E.
    injection E as <-. simpl.
    destruct (decide (i = i0)) as [->|Hne].
    + rewrite list_lookup_insert_eq by (eapply lookup_lt_Some; exact E0).
      eexists. split; [reflexivity|]. rewrite Hi in E0. injection E0 as ->. reflexivity.
    + rewrite list_lookup_insert_ne by congruence. eauto.
  - injection E as <-. eauto.
Qed.

Lemma run_keeps_deadline (ls : list label) (s s' : state) (i : nat) (tm : timer) :
  run ls s = Some s' -> timers s !! i = Some tm ->
  exists tm', timers s' !! i = Some tm' /\ deadline tm' = deadline tm.
Proof.
  revert s tm. induction ls as [|l ls IH]; intros s tm E Hi; simpl in E.
  - injection E as <-. eauto.
  - destruct (step l s) as [s1|] eqn:E1; [|discriminate].
    destruct (step_keeps_deadline l s s1 i tm E1 Hi) as (tm1 & H1 & Hd1).
    destruct (IH s1 tm1 E H1) as (tm' & H' & Hd').
    exists tm'. split; [exact H' | congruence].
Qed.

Lemma step_now (l : label) (s s' : state) : step l s = Some s' -> now s <= now s'.
Proof.
  intros E. destruct l; simpl in E.
  - unfold Register, try_send in E. simpl in E.
    split_ifs E; simpl in E; try discriminate E; injection E as <-; simpl; lia.
  - unfold Done, try_send in E. simpl in E.
    split_ifs E; simpl in E; try discriminate E; injection E as <-; simpl; lia.
  - unfold Shutdown, close_chan in E. simpl in E.
    split_ifs E; simpl in E; try discriminate E; injection E as <-; simpl; lia.
  - injection E as <-. simpl. lia.
  - unfold decay_step, stop_if_set, arm in E. destruct (decay_pc s); try discriminate E;
      split_ifs E; try discriminate E; injection E as <-; simpl; try lia;
      destruct (t s); simpl; lia.
  - unfold expire in E. destruct (timers s !! i) as [[dl []]|]; try discriminate E.
    split_ifs E; try discriminate E. injection E as <-. simpl. lia.
  - unfold run_clear in E. destruct (timers s !! i) as [[dl []]|]; try discriminate E.
    injection E as <-. simpl. lia.
  - injection E as <-. simpl. lia.
Qed.

Lemma step_fired_in_time (l : label) (s s' : state) :
  fired_in_time s -> step l s = Some s' -> fired_in_time s'.
Proof.
  intros F E. pose proof (step_now l s s' E) as Hn.
  assert (Hsame : timers s' = timers s -> fired_in_time s').
  { intros Ht i tm Hi Hf. rewrite Ht in Hi. specialize (F i tm Hi Hf). lia. }
  assert (Hstop : forall i tm, timers (stop_if_set s) !! i = Some tm ->
                               has_fired tm = true -> deadline tm <= now s).
  { intros i tm Hi Hf. unfold stop_if_set in Hi.
    destruct (t s) as [j|]; simpl in Hi; [|eauto].
    destruct (decide (i = j)) as [->|Hne].
    - rewrite list_lookup_alter_eq in Hi.
      destruct (timers s !! j) as [tm0|] eqn:E0; [|discriminate].
      simpl in Hi. injection Hi as <-.
      rewrite stop_timer_fired in Hf. rewrite stop_timer_deadline. eauto.
    - rewrite list_lookup_alter_ne in Hi by congruence. eauto. }
  destruct l; simpl in E.
  - apply Hsame. unfold Register, try_send in E. simpl in E.
    split_ifs E; simpl in E; try discriminate E; injection E as <-; reflexivity.
  - apply Hsame. unfold Done, try_send in E. simpl in E.
    split_ifs E; simpl in E; try discriminate E; injection E as <-; reflexivity.
  - apply Hsame. unfold Shutdown, close_chan in E. simpl in E.
    split_ifs E; simpl in E; try discriminate E; injection E as <-; reflexivity.
  - apply Hsame. injection E as <-. reflexivity.
  - unfold decay_step in E. destruct (decay_pc s); try discriminate E;
      split_ifs E; try discriminate E; injection E as <-;
      try (apply Hsame; reflexivity).
    + intros i tm Hi Hf. simpl in Hi |- *.
      destruct (stop_if_set_fields s) as (_ & _ & _ & _ & _ & _ & _ & _ & _ & _ & Hnow & _).
      rewrite Hnow. exact (Hstop i tm Hi Hf).
    + intros i tm Hi Hf. unfold arm in Hi. simpl in *.
      destruct (decide (i < length (timers s))%nat) as [Hlt|Hge].
      * rewrite lookup_app_l in Hi by exact Hlt. eauto.
      * rewrite lookup_app_r in Hi by lia.
        destruct (i - length (timers s))%nat; simpl in Hi; [|discriminate].
        injection Hi as <-. discriminate Hf.
    + intros i tm Hi Hf. simpl in Hi |- *.
      destruct (stop_if_set_fields s) as (_ & _ & _ & _ & _ & _ & _ & _ & _ & _ & Hnow & _).
      rewrite Hnow. exact (Hstop i tm Hi Hf).
  - unfold expire in E.
    destruct (timers s !! i) as [[dl []]|] eqn:E0; try discriminate E.
    destruct (dl <=? now s) eqn:Ed; [|discriminate E]. injection E as <-.
    intros j tm Hj Hf. simpl in *.
    destruct (decide (j = i)) as [->|Hne].
    + rewrite list_lookup_insert_eq in Hj by (eapply lookup_lt_Some; exact E0).
      injection Hj as <-. simpl. apply Z.leb_le. exact Ed.
    + rewrite list_lookup_insert_ne in Hj by congruence. eauto.
  - unfold run_clear in E.
    destruct (timers s !! i) as [[dl []]|] eqn:E0; try discriminate E.
    injection E as <-. intros j tm Hj Hf. simpl in *.
    destruct (decide (j = i)) as [->|Hne].
    + rewrite list_lookup_insert_eq in Hj by (eapply lookup_lt_Some; exact E0).
      injection Hj as <-. simpl. apply (F i _ E0). reflexivity.
    + rewrite list_lookup_insert_ne in Hj by congruence. eauto.
  - injection E as <-. intros i tm Hi Hf. simpl in *. specialize (F i tm Hi Hf). lia.
Qed.

Lemma run_fired_in_time (ls : list label) (s s' : state) :
  fired_in_time s -> run ls s = Some s' -> fired_in_time s'.
Proof.
  revert s. induction ls as [|l ls IH]; intros s F E; simpl in E.
  - injection E as <-. exact F.
  - destruct (step l s) as [s1|] eqn:E1; [|discriminate].
    eapply IH; [eapply step_fired_in_time; eassumption | exact E].
Qed.

Lemma reachable_fired_in_time (s : state) : reachable s -> fired_in_time s.
Proof.
  intros (h & dl & ls & E). eapply run_fired_in_time; [|exact E].
  intros i tm Hi. discriminate Hi.
Qed.

(** X4: the function of a timer is never started before the delay has
    passed since [decay] armed the timer: if the timer that [decay] arms in
    state [sa] has fired in a later state, the clock of that state is at
    least the clock of [sa] plus the delay. *)
Theorem timer_waits_for_delay
  (sa sb s' : state) (ls : list label) (tm : timer) :
  reachable sa -> decay_pc sa = AtArm -> decay_step sa = Some sb ->
  run ls sb = Some s' ->
  timers s' !! length (timers sa) = Some tm -> has_fired tm = true ->
  now sa + delay sa <= now s'.
Proof.
  intros Hr Hp Ea E Hi Hf.
  assert (Hrb : reachable sb) by (apply (reachable_run [LDecay] sa sb Hr); simpl; rewrite Ea; reflexivity).
  pose proof (reachable_fired_in_time s' (reachable_run ls sb s' Hrb E)) as F.
  unfold decay_step in Ea. rewrite Hp in Ea. injection Ea as <-.
  assert (Hb : timers (set_pc (arm sa) AtSelect) !! length (timers sa) =
               Some (Timer (now sa + delay sa) TPending)).
  { unfold arm. simpl. rewrite lookup_app_r by lia. rewrite Nat.sub_diag. reflexivity. }
  destruct (run_keeps_deadline ls _ s' _ _ E Hb) as (tm' & Hi' & Hd).
  rewrite Hi in Hi'. injection Hi' as <-. simpl in Hd. rewrite <- Hd.
  exact (F _ tm Hi Hf).
Qed.

Lemma reachable_arming_example : reachable arming_example.
Proof.
  exists [], 3, [LDecay; LRegister; LDecay; LDone; LDecay].
  vm_compute. reflexivity.
Qed.

Lemma timer_waits_for_delay_witness :
  exists sb s',
    decay_step arming_example = Some sb /\
    run [LDecay; LTick; LTick; LTick; LTick; LExpire 0] sb = Some s' /\
    now arming_example + delay arming_example <= now s'.
Proof.
  eexists. eexists.
  split; [vm_compute; reflexivity|]. split; [vm_compute; reflexivity|].
  match goal with |- _ <= now ?s' =>
    apply (timer_waits_for_delay arming_example
             (set_pc (arm arming_example) AtSelect) s'
             [LDecay; LTick; LTick; LTick; LTick; LExpire 0%nat] (Timer 3 TStarted)
             reachable_arming_example eq_refl eq_refl)
  end.
  - vm_compute. reflexivity.
  - reflexivity.
  - reflexivity.
Defined.

(** ** How often the pool is cleared *)

Lemma countb_app {A : Type} (f : A -> bool) (l1 l2 : list A) :
  countb f (l1 ++ l2) = (countb f l1 + countb f l2)%nat.
Proof. induction l1 as [|x l1 IH]; simpl; [reflexivity | rewrite IH; lia]. Qed.

Lemma countb_le_length {A : Type} (f : A -> bool) (l : list A) :
  (countb f l <= length l)%nat.
Proof. induction l as [|x l IH]; simpl; [lia | destruct (f x); lia]. Qed.

Lemma countb_insert {A : Type} (f : A -> bool) (l : list A) (i : nat) (a b : A) :
  l !! i = Some a ->
  (countb f (<[i := b]> l) + (if f a then 1 else 0) =
   countb f l + (if f b then 1 else 0))%nat.
Proof.
  revert i. induction l as [|x l IH]; intros i Hi; [discriminate|].
  destruct i as [|i]; simpl in *.
  - injection Hi as ->. lia.
  - specialize (IH i Hi). lia.
Qed.

Lemma countb_alter_same {A : Type} (f : A -> bool) (g : A -> A) (l : list A) (i : nat) :
  (forall a, f (g a) = f a) -> countb f (alter g i l) = countb f l.
Proof.
  intros Hg. revert i. induction l as [|x l IH]; intros i; [reflexivity|].
  destruct i as [|i]; simpl.
  - rewrite Hg. reflexivity.
  - f_equal. apply IH.
Qed.

Lemma stop_timer_finished (tm : timer) : is_finished (stop_timer tm) = is_finished tm.
Proof. destruct tm as [dl []]; reflexivity. Qed.

Lemma step_counts (l : label) (s s' : state) :
  wf s -> step l s = Some s' ->
  (armed_or_answering s' <= armed_or_answering s + (if is_register l then 1 else 0))%nat /\
  (armed_or_drained s' <= armed_or_drained s + (if is_done l then 1 else 0))%nat /\
  (clears s = countb is_finished (timers s) ->
   clears s' = countb is_finished (timers s')).
Proof.
  intros H E. unfold armed_or_answering, armed_or_drained.
  destruct l; simpl in E.
  - apply of_result_Some in E. rewrite (Register_eq s H) in E. injection E as <-.
    simpl. destruct (pc_eqb (decay_pc s) InSelect) eqn:Ep; simpl.
    + apply pc_eqb_eq in Ep. rewrite Ep. simpl. repeat split; auto; lia.
    + repeat split; auto; lia.
  - apply of_result_Some in E. rewrite (Done_eq s H) in E. injection E as <-.
    simpl. destruct (_ && _) eqn:Eb; simpl; [|repeat split; auto; lia].
    apply andb_true_iff in Eb. destruct Eb as [_ Eb]. apply Nat.eqb_eq in Eb.
    rewrite Eb. repeat split; auto; lia.
  - apply of_result_Some in E. rewrite (Shutdown_eq s H) in E. injection E as <-.
    destruct (closed s); [repeat split; auto; lia|].
    destruct (pc_eqb (decay_pc s) InSelect) eqn:Ep; simpl; [|repeat split; auto; lia].
    apply pc_eqb_eq in Ep. rewrite Ep. simpl. repeat split; auto; lia.
  - injection E as <-. simpl. repeat split; auto; lia.
  - unfold decay_step, recv_ready in E. rewrite (wf_c s H), (wf_q s H) in E.
    rewrite (wf_d_open s H), orb_false_r in E. simpl in E.
    destruct (stop_if_set_fields s) as (_ & _ & Hd & _ & _ & _ & Hlen & _).
    assert (Hfin : countb is_finished (timers (stop_if_set s)) =
                   countb is_finished (timers s)).
    { unfold stop_if_set. destruct (t s); simpl; [|reflexivity].
      apply countb_alter_same, stop_timer_finished. }
    assert (Hcl : clears (stop_if_set s) = clears s)
      by (unfold stop_if_set; destruct (t s); reflexivity).
    destruct (decay_pc s) eqn:Ep; try discriminate E.
    + destruct (closed s); injection E as <-; simpl; repeat split; auto; lia.
    + injection E as <-. simpl. rewrite Hd, Hlen, Hcl, Hfin. repeat split; auto; lia.
    + destruct (0 <? buf (d s))%nat eqn:Eb; [|discriminate E]. injection E as <-.
      apply Nat.ltb_lt in Eb. simpl. repeat split; auto; lia.
    + injection E as <-. unfold arm. simpl. rewrite length_app, countb_app. simpl.
      repeat split; auto; lia.
    + injection E as <-. simpl. rewrite Hd, Hlen, Hcl, Hfin. repeat split; auto; lia.
  - unfold expire in E.
    destruct (timers s !! i) as [[dl []]|] eqn:E0; try discriminate E.
    split_ifs E; try discriminate E. injection E as <-. simpl.
    rewrite length_insert.
    pose proof (countb_insert is_finished _ i _ (Timer dl TStarted) E0) as Hc.
    simpl in Hc. repeat split; lia.
  - unfold run_clear in E.
    destruct (timers s !! i) as [[dl []]|] eqn:E0; try discriminate E.
    injection E as <-. simpl. rewrite length_insert.
    pose proof (countb_insert is_finished _ i _ (Timer dl TFinished) E0) as Hc.
    simpl in Hc. repeat split; lia.
  - injection E as <-. simpl. repeat split; auto; lia.
Qed.

Lemma run_counts (ls : list label) (s s' : state) :
  wf s -> run ls s = Some s' ->
  Z.of_nat (armed_or_answering s') <= Z.of_nat (armed_or_answering s) + registers ls /\
  Z.of_nat (armed_or_drained s') <= Z.of_nat (armed_or_drained s) + dones ls /\
  (clears s = countb is_finished (timers s) ->
   clears s' = countb is_finished (timers s')).
Proof.
  revert s. induction ls as [|l ls IH]; intros s H E; simpl in E.
  - injection E as <-. change (registers []) with 0. change (dones []) with 0.
    repeat split; auto; lia.
  - destruct (step l s) as [s1|] eqn:E1; [|discriminate].
    destruct (step_counts l s s1 H E1) as (Ha & Hb & Hc).
    destruct (IH s1 (wf_step l s s1 H E1) E) as (Ha' & Hb' & Hc').
    rewrite registers_cons, dones_cons.
    split; [destruct (is_register l); lia|].
    split; [destruct (is_done l); lia | auto].
Qed.

(** X5: after any interleaving from the constructor, the timers have
    cleared the pool at most once per timer armed, and [decay] has armed at
    most as many timers as [Register] has been called and at most as many
    as [Done] has been called. *)
Theorem clears_bounded_by_calls
  (histogram : samples) (dl : Z) (ls : list label) (s : state) :
  run ls (NewSelfCleaningHistogram histogram dl) = Some s ->
  (clears s <= length (timers s))%nat /\
  Z.of_nat (length (timers s)) <= registers ls /\
  Z.of_nat (length (timers s)) <= dones ls.
Proof.
  intros E.
  destruct (run_counts ls _ s (wf_New histogram dl) E) as (Ha & Hb & Hc).
  unfold armed_or_answering, armed_or_drained in Ha, Hb. simpl in Ha, Hb.
  split; [|split].
  - rewrite (Hc eq_refl). apply countb_le_length.
  - destruct (answering (decay_pc s)); lia.
  - destruct (pc_eqb (decay_pc s) AtArm); lia.
Qed.

Lemma clears_bounded_by_calls_witness :
  (clears armed_example <= 1)%nat /\ length (timers armed_example) = 1%nat.
Proof.
  destruct (clears_bounded_by_calls [] 150
              [LDecay; LRegister; LDecay; LUpdate 7; LDone; LDecay; LDecay; LDecay]
              armed_example ltac:(vm_compute; reflexivity)) as (Hc & _ & _).
  split; [exact Hc | reflexivity].
Defined.

(** ** Shutdown after the documented use *)






(** ** The first Register *)

Lemma unregistered_only_grows (ls : list label) (s s' : state) :
  wf s -> timers s = [] -> t s = None -> never_armed (decay_pc s) = true ->
  Forall (fun l => is_register l = false) ls ->
  run ls s = Some s' ->
  timers s' = [] /\ clears s' = clears s /\
  exists added, pool s' = added ++ pool s.
Proof.
  revert s. induction ls as [|l ls IH]; intros s H Ht Hv Hp F E; simpl in E.
  - injection E as <-. split; [exact Ht|]. split; [reflexivity|]. exists []. reflexivity.
  - inversion F as [|? ? Hl F']; subst.
    destruct (step l s) as [s1|] eqn:E1; [|discriminate].
    pose proof (wf_step l s s1 H E1) as H1.
    assert (Hs1 : timers s1 = [] /\ t s1 = None /\ never_armed (decay_pc s1) = true /\
                  clears s1 = clears s /\ exists a, pool s1 = a ++ pool s).
    { destruct l; try discriminate; simpl in E1.
      - apply of_result_Some in E1. rewrite (Done_eq s H) in E1. injection E1 as <-.
        simpl. destruct (_ && _); simpl; repeat split; auto; exists []; reflexivity.
      - apply of_result_Some in E1. rewrite (Shutdown_eq s H) in E1. injection E1 as <-.
        destruct (closed s); [repeat split; auto; exists []; reflexivity|].
        destruct (pc_eqb _ _); simpl; repeat split; auto; exists []; reflexivity.
      - injection E1 as <-. simpl. repeat split; auto. exists [v]. reflexivity.
      - unfold decay_step, recv_ready, stop_if_set in E1.
        rewrite (wf_c s H), Hv in E1. simpl in E1.
        destruct (decay_pc s); try discriminate;
          split_ifs E1; injection E1 as <-; simpl; repeat split; auto;
          exists []; reflexivity.
      - unfold expire in E1. rewrite Ht in E1. discriminate.
      - unfold run_clear in E1. rewrite Ht in E1. discriminate.
      - injection E1 as <-. simpl. repeat split; auto. exists []. reflexivity. }
    destruct Hs1 as (Ht1 & Hv1 & Hp1 & Hc1 & a1 & Ha1).
    destruct (IH s1 H1 Ht1 Hv1 Hp1 F' E) as (Ht' & Hc' & a' & Ha').
    split; [exact Ht'|]. split; [congruence|].
    exists (a' ++ a1). rewrite Ha', Ha1, app_assoc. reflexivity.
Qed.

(** X7: the constructor returns when [decay] has started, not when it is
    parked in its [select]: a [Register] that comes first is counted but its
    pulse is dropped, and if no other [Register] follows, [decay] never arms
    a timer: whatever [Done], [Update], the clock and [decay] do afterwards,
    the pool is never cleared and keeps every sample. *)
Theorem first_register_can_be_lost
  (histogram : samples) (dl : Z) (ls : list label) (s' : state) :
  Forall (fun l => is_register l = false) ls ->
  run (LRegister :: ls) (NewSelfCleaningHistogram histogram dl) = Some s' ->
  timers s' = [] /\ clears s' = 0%nat /\
  exists added, pool s' = added ++ histogram.
Proof.
  intros F E. simpl in E.
  apply (unregistered_only_grows ls
           (set_cnt (NewSelfCleaningHistogram histogram dl) 1) s');
    try reflexivity; try assumption.
  apply wf_set_cnt; [apply wf_New | unfold uint64_mod; lia].
Qed.

Lemma first_register_can_be_lost_witness :
  exists s',
    run (LRegister :: LDecay :: LUpdate 7 :: LDone :: repeat LTick 200)
        (NewSelfCleaningHistogram [] 150) = Some s' /\
    cnt s' = 0 /\ now s' = 200 /\ pool s' = [7] /\ clears s' = 0%nat.
Proof.
  eexists. split; [vm_compute; reflexivity|].
  split; [reflexivity|]. split; [reflexivity|]. split; [reflexivity|].
  match goal with |- clears ?s' = _ =>
    destruct (first_register_can_be_lost [] 150
                (LDecay :: LUpdate 7 :: LDone :: repeat LTick 200) s'
                ltac:(repeat constructor) ltac:(vm_compute; reflexivity))
      as (_ & Hc & _)
  end.
  exact Hc.
Defined.

(** ** A whole cycle of use *)

Lemma run_updates (vs : list Z) (s : state) :
  run (map LUpdate vs) s = Some (set_pool s (rev vs ++ pool s) (clears s)).
Proof.
  revert s. induction vs as [|v vs IH]; intros s; simpl.
  - destruct s; reflexivity.
  - rewrite IH. unfold Update, samples_Update. simpl.
    rewrite <- app_assoc. reflexivity.
Qed.

Lemma step_clears (l : label) (s s' : state) :
  (forall i, l <> LClear i) -> step l s = Some s' -> clears s' = clears s.
Proof.
  intros Hl E. destruct l; simpl in E.
  - unfold Register, try_send in E. simpl in E.
    split_ifs E; simpl in E; try discriminate E; injection E as <-; reflexivity.
  - unfold Done, try_send in E. simpl in E.
    split_ifs E; simpl in E; try discriminate E; injection E as <-; reflexivity.
  - unfold Shutdown, close_chan in E. simpl in E.
    split_ifs E; simpl in E; try discriminate E; injection E as <-; reflexivity.
  - injection E as <-. reflexivity.
  - decay_cases E.
  - timer_cases E.
  - destruct (Hl i). reflexivity.
  - injection E as <-. reflexivity.
Qed.

Lemma run_clears (ls : list label) (s s' : state) :
  Forall (fun l => forall i, l <> LClear i) ls ->
  run ls s = Some s' -> clears s' = clears s.
Proof.
  revert s. induction ls as [|l ls IH]; intros s F E; simpl in E.
  - injection E as <-. reflexivity.
  - inversion F as [|? ? Hl F']; subst.
    destruct (step l s) as [s1|] eqn:E1; [|discriminate].
    rewrite (IH s1 F' E). apply (step_clears l s s1 Hl E1).
Qed.

Lemma quiet_no_clear (ls : list label) :
  Forall (fun l => is_quiet l = true) ls ->
  Forall (fun l => forall i, l <> LClear i) ls.
Proof.
  intros F. eapply Forall_impl; [exact F|]. intros l Hq i ->. discriminate Hq.
Qed.

(** X8: a whole cycle from the constructor, as the self-cleaning test of
    the package runs it: [decay] parks, a user registers, inserts any
    samples and is done; if [decay] has followed and nobody registers or
    shuts down afterwards, then once the clock has reached the delay the
    armed timer fires and its [Clear] leaves Count() == 0, the pool having
    been cleared once. *)
Theorem registered_cycle_clears
  (histogram : samples) (dl : Z) (vs : list Z) (ls : list label) (s2 : state) :
  Forall (fun l => is_quiet l = true) ls ->
  run ([LDecay; LRegister; LDecay] ++ map LUpdate vs ++
       [LDone; LDecay; LDecay] ++ ls)
      (NewSelfCleaningHistogram histogram dl) = Some s2 ->
  dl <= now s2 ->
  exists s3,
    run [LExpire 0; LClear 0] s2 = Some s3 /\
    Count s3 = 0 /\ cnt s3 = 0 /\ clears s3 = 1%nat.
Proof.
  intros F E Hd.
  rewrite run_app in E.
  assert (E0 : run [LDecay; LRegister; LDecay] (NewSelfCleaningHistogram histogram dl) =
               Some (set_cnt (set_pc (NewSelfCleaningHistogram histogram dl) AtRecvD) 1))
    by reflexivity.
  rewrite E0, run_app, run_updates in E.
  set (s := set_pool _ _ _) in E.
  assert (H : wf s).
  { apply (wf_run ([LDecay; LRegister; LDecay] ++ map LUpdate vs)
             (NewSelfCleaningHistogram histogram dl)); [apply wf_New|].
    rewrite run_app, E0, run_updates. reflexivity. }
  rewrite run_app in E.
  destruct (run [LDone; LDecay; LDecay] s) as [sA|] eqn:EA; [|discriminate].
  destruct (done_arms_timer s sA H eq_refl eq_refl eq_refl eq_refl EA)
    as (HA & HcA & HpA & HnA & HwA & HplA & HtA).
  destruct (armed_survives_quiet ls sA s2 _ _ HA HcA
              ltac:(rewrite HpA; reflexivity) HtA F E) as (Ht2 & Hn2 & _).
  assert (Hcl : clears s2 = 0%nat).
  { rewrite (run_clears ls sA s2 (quiet_no_clear ls F) E).
    rewrite (run_clears [LDone; LDecay; LDecay] s sA) by
      (try exact EA; repeat constructor; discriminate).
    reflexivity. }
  destruct (pending_timer_clears s2 _ _ Ht2 ltac:(simpl; lia))
    as (s3 & E3 & Hp3 & Hn3 & Hc3).
  exists s3. split; [exact E3|]. split; [|split].
  - unfold Count. rewrite Hp3. reflexivity.
  - congruence.
  - rewrite Hc3, Hcl. reflexivity.
Qed.

Lemma registered_cycle_clears_witness :
  exists s3,
    run ([LDecay; LRegister; LDecay] ++ map LUpdate [5; 6; 7] ++
         [LDone; LDecay; LDecay] ++ (LDecay :: repeat LTick 200) ++
         [LExpire 0; LClear 0])
        (NewSelfCleaningHistogram [] 150) = Some s3 /\
    Count s3 = 0.
Proof.
  assert (Hex : exists s2,
            run ([LDecay; LRegister; LDecay] ++ map LUpdate [5; 6; 7] ++
                 [LDone; LDecay; LDecay] ++ (LDecay :: repeat LTick 200))
                (NewSelfCleaningHistogram [] 150) = Some s2 /\ 150 <= now s2).
  { eexists. split; [vm_compute; reflexivity|]. vm_compute. discriminate. }
  destruct Hex as (s2 & E2 & Hd).
  destruct (registered_cycle_clears [] 150 [5; 6; 7] (LDecay :: repeat LTick 200) s2
              ltac:(repeat constructor) E2 Hd) as (s3 & E3 & Hc & _).
  exists s3. split; [|exact Hc].
  rewrite !app_assoc. rewrite run_app.
  rewrite <- !app_assoc. rewrite E2. exact E3.
Defined.

(** ** Transfers in a row *)

Section CallersFacts.

Context {E : Type}.
Variable time_now : E -> Z * E.

Lemma Read_Write_same (st : stream) (h : histogram) (b : bool)
  (p : list byte) (w : @world E) :
  Writer_Write time_now (mkWriter st h b) p w =
  Reader_Read time_now (mkReader st h b) p w.
Proof. reflexivity. Qed.

Lemma Reader_Read_calls (st : stream) (h : histogram) (b : bool)
  (p : list byte) (w : @world E) :
  exists r w' ups,
    Reader_Read time_now (mkReader st h b) p w = Ret (r, w') /\
    log w' = log w ++ CallXfer p :: ups /\
    Forall (fun k => is_update k = true) ups /\
    length ups = (if is_positive r && negb (is_nil h) then 1 else 0)%nat.
Proof.
  unfold Reader_Read, time_Now, call_xfer, call_Update, record_call, is_positive.
  simpl. destruct w as [e l]. simpl.
  destruct (is_nil h) eqn:Hn; simpl.
  - destruct (xfer st p e) as [[n err] e2]. simpl.
    rewrite andb_false_r. exists (n, err), {| env := e2; log := l ++ [CallXfer p] |}, [].
    simpl. rewrite andb_false_r. repeat split. constructor.
  - destruct (time_now e) as [t0 e1]. simpl.
    destruct (xfer st p e1) as [[n err] e2]. simpl.
    destruct (0 <? n)%Z eqn:En; simpl.
    + destruct (time_now e2) as [t1 e3]. simpl. rewrite <- app_assoc.
      eexists (n, err), _, [_]. simpl. rewrite En. simpl.
      split; [reflexivity|]. split; [reflexivity|].
      split; [repeat constructor | reflexivity].
    + exists (n, err), {| env := e2; log := l ++ [CallXfer p] |}, [].
      simpl. rewrite En. repeat split. constructor.
Qed.

Lemma countb_updates (ups : list call) :
  Forall (fun k => is_update k = true) ups ->
  countb is_update ups = length ups /\ countb is_xfer ups = 0%nat /\
  Forall (fun k => is_transfer_call k = true) ups.
Proof.
  induction 1 as [|k ups Hk _ (IH1 & IH2 & IH3)]; simpl; [auto|].
  destruct k; try discriminate Hk. simpl. rewrite IH1, IH2.
  split; [reflexivity|]. split; [reflexivity|]. constructor; [reflexivity | exact IH3].
Qed.

Lemma Writer_Write_all_same (st : stream) (h : histogram) (b : bool)
  (ps : list (list byte)) (w : @world E) :
  Writer_Write_all time_now (mkWriter st h b) ps w =
  Reader_Read_all time_now (mkReader st h b) ps w.
Proof.
  revert w. induction ps as [|p ps IH]; intros w; simpl; [reflexivity|].
  rewrite Read_Write_same.
  destruct (Reader_Read time_now (mkReader st h b) p w) as [x|]; simpl; [|reflexivity].
  rewrite IH. reflexivity.
Qed.

Lemma Reader_Read_all_calls (st : stream) (h : histogram) (b : bool)
  (ps : list (list byte)) (w : @world E) :
  exists rs w' new,
    Reader_Read_all time_now (mkReader st h b) ps w = Ret (rs, w') /\
    length rs = length ps /\
    log w' = log w ++ new /\
    Forall (fun k => is_transfer_call k = true) new /\
    countb is_xfer new = length ps /\
    countb is_update new = (if is_nil h then 0 else countb is_positive rs)%nat.
Proof.
  revert w. induction ps as [|p ps IH]; intros w; simpl.
  - exists [], w, []. rewrite app_nil_r. simpl.
    repeat split; auto. destruct (is_nil h); reflexivity.
  - destruct (Reader_Read_calls st h b p w) as (r & w1 & ups & E1 & L1 & F1 & N1).
    rewrite E1. simpl.
    destruct (IH w1) as (rs & w' & new & E2 & Hl & L2 & F2 & X2 & U2).
    rewrite E2. simpl.
    destruct (countb_updates ups F1) as (Cu & Cx & Ft).
    exists (r :: rs), w', (CallXfer p :: ups ++ new).
    split; [reflexivity|]. split; [simpl; lia|]. split.
    { rewrite L2, L1, <- app_assoc. reflexivity. }
    split; [constructor; [reflexivity | apply Forall_app; split; assumption]|].
    simpl. rewrite !countb_app, Cu, Cx, X2, U2, N1. split; [lia|].
    destruct (is_nil h); simpl; [rewrite andb_false_r; reflexivity|].
    rewrite andb_true_r. destruct (is_positive r); reflexivity.
Qed.

(** X9: transfers in a row through a Reader or a Writer never panic,
    whatever the histogram, nil included, and whether or not the wrapper
    has been closed; they call the wrapped stream once per transfer, insert
    exactly as many samples as transfers returned a positive byte count
    (none when the histogram is nil), and call nothing else: no Register,
    no Done, no Close. *)
Theorem transfers_sample_each_positive (st : stream) (h : histogram) (b : bool)
  (ps : list (list byte)) (w : @world E) :
  exists rs w' new,
    Reader_Read_all time_now (mkReader st h b) ps w = Ret (rs, w') /\
    Writer_Write_all time_now (mkWriter st h b) ps w = Ret (rs, w') /\
    length rs = length ps /\
    log w' = log w ++ new /\
    Forall (fun k => is_transfer_call k = true) new /\
    countb is_xfer new = length ps /\
    countb is_update new = (if is_nil h then 0 else countb is_positive rs)%nat.
Proof.
  destruct (Reader_Read_all_calls st h b ps w)
    as (rs & w' & new & Er & Hl & L & F & X & U).
  exists rs, w', new. rewrite Writer_Write_all_same. auto 10.
Qed.

End CallersFacts.

(** ** The life of a wrapper *)

Section LifeFacts.

Context {E : Type}.
Variable time_now : E -> Z * E.

Lemma Reader_Close_times_log (st : stream) (h : histogram) (n : nat) (w : @world E) :
  log (snd (Reader_Close_times (S n) (mkReader st h false) w)) =
  log w ++ close_calls h st.
Proof.
  simpl. rewrite Reader_Close_open.
  rewrite Reader_Close_times_closed by reflexivity. reflexivity.
Qed.

Lemma Writer_Close_times_same (st : stream) (h : histogram) (n : nat) (w : @world E) :
  snd (Writer_Close_times (S n) (mkWriter st h false) w) =
  snd (Reader_Close_times (S n) (mkReader st h false) w).
Proof.
  simpl. rewrite Reader_Close_open, Writer_Close_open.
  rewrite Reader_Close_times_closed, Writer_Close_times_closed by reflexivity.
  reflexivity.
Qed.

Lemma Reader_life_unfold (st : stream) (h : histogram)
  (ps : list (list byte)) (n : nat) (w : @world E) :
  Reader_life time_now st h ps n w =
  (x <- Reader_Read_all time_now (mkReader st h false) ps
          (if is_registrar h then record_call CallRegister w else w) ;;
   Ret (fst x, snd (Reader_Close_times (S n) (mkReader st h false) (snd x)))).
Proof.
  unfold Reader_life, NewReader. destruct (is_registrar h); reflexivity.
Qed.

Lemma Writer_life_same (st : stream) (h : histogram)
  (ps : list (list byte)) (n : nat) (w : @world E) :
  Writer_life time_now st h ps n w = Reader_life time_now st h ps n w.
Proof.
  rewrite Reader_life_unfold. unfold Writer_life, NewWriter.
  set (w0 := if is_registrar h then record_call CallRegister w else w).
  assert (E0 : (if is_registrar h
                then (mkWriter st h false, record_call CallRegister w)
                else (mkWriter st h false, w)) = (mkWriter st h false, w0))
    by (unfold w0; destruct (is_registrar h); reflexivity).
  rewrite E0, Writer_Write_all_same.
  destruct (Reader_Read_all time_now (mkReader st h false) ps w0) as [[rs w1]|];
    [|reflexivity].
  exact (f_equal (fun x => Ret (rs, x)) (Writer_Close_times_same st h n w1)).
Qed.

(** X10: over its life (construction, transfers, one or more Closes) a
    Reader or Writer never panics and calls its collaborators in this
    order: [Register] once if the histogram is a Registrar, then only
    transfers and their samples, as many samples as transfers returned a
    positive byte count, then what the first Close calls: [Done] once if the
    histogram is a Registrar, and the Close of the wrapped stream if it has
    one.  Every sample lies between the [Register] and the [Done]. *)
Theorem wrapper_life_is_bracketed (st : stream) (h : histogram)
  (ps : list (list byte)) (n : nat) (w : @world E) :
  exists rs w' mid,
    Reader_life time_now st h ps n w = Ret (rs, w') /\
    Writer_life time_now st h ps n w = Ret (rs, w') /\
    length rs = length ps /\
    log w' = log w ++ (if is_registrar h then [CallRegister] else []) ++
             mid ++ close_calls h st /\
    Forall (fun k => is_transfer_call k = true) mid /\
    countb is_update mid = (if is_nil h then 0 else countb is_positive rs)%nat.
Proof.
  rewrite Writer_life_same, Reader_life_unfold.
  set (w0 := if is_registrar h then record_call CallRegister w else w).
  destruct (Reader_Read_all_calls time_now st h false ps w0)
    as (rs & w1 & mid & Er & Hl & L & F & _ & U).
  rewrite Er. simpl bind.
  exists rs, (snd (Reader_Close_times (S n) (mkReader st h false) w1)), mid.
  split; [reflexivity|]. split; [reflexivity|].
  split; [exact Hl|]. split; [|split; assumption].
  change (snd (rs, w1)) with w1. rewrite Reader_Close_times_log, L.
  unfold w0, record_call. destruct (is_registrar h); simpl;
    rewrite <- ?app_assoc; reflexivity.
Qed.

End LifeFacts.

Lemma filter_calls_cons (l : label) (ls : list label) :
  filter (fun l => is_call l = true) (l :: ls) =
  if is_call l then l :: filter (fun l => is_call l = true) ls
  else filter (fun l => is_call l = true) ls.
Proof.
  rewrite filter_cons. destruct (decide (is_call l = true)) as [e|n].
  - rewrite e. reflexivity.
  - destruct (is_call l); [congruence | reflexivity].
Qed.

Lemma registers_dones_of_calls (ls : list label) :
  registers (filter (fun l => is_call l = true) ls) = registers ls /\
  dones (filter (fun l => is_call l = true) ls) = dones ls.
Proof.
  induction ls as [|l ls [IH1 IH2]]; [split; reflexivity|].
  rewrite filter_calls_cons.
  destruct l; simpl; rewrite ?registers_cons, ?dones_cons; simpl; split; lia.
Qed.

Lemma transfer_calls_are_no_calls (mid : list call) :
  Forall (fun k => is_transfer_call k = true) mid ->
  filter (fun l => is_call l = true) (labels_of_log mid) = [].
Proof.
  induction 1 as [|k mid Hk _ IH]; [reflexivity|].
  destruct k; try discriminate Hk; simpl; [|exact IH].
  rewrite filter_calls_cons. simpl. exact IH.
Qed.

(** X11: a wrapper with a [*SelfCleaningHistogram] attached leaves the
    live-count where it found it: in any interleaving in which the calls of
    [Register] and [Done] are those of one wrapper's life, the live-count at
    the end is the live-count at the start. *)
Theorem wrapper_life_keeps_live_count {E : Type} (time_now : E -> Z * E)
  (st : stream) (ps : list (list byte)) (n : nat) (e : E)
  (rs : list (Z * option error)) (w' : world)
  (s s' : state) (ls : list label) :
  reachable s ->
  Reader_life time_now st RegistrarHistogram ps n {| env := e; log := [] |} =
    Ret (rs, w') ->
  filter (fun l => is_call l = true) ls =
    filter (fun l => is_call l = true) (labels_of_log (log w')) ->
  run ls s = Some s' ->
  cnt s' = cnt s.
Proof.
  intros Hr El Hf Er. pose proof (reachable_wf s Hr) as H.
  rewrite Reader_life_unfold in El. simpl in El.
  destruct (Reader_Read_all_calls time_now st RegistrarHistogram false ps
              (record_call CallRegister {| env := e; log := [] |}))
    as (rs0 & w1 & mid & E0 & _ & L1 & F & _).
  rewrite E0 in El. simpl in El. injection El as <- <-.
  assert (L : log (snd (Reader_Close_times (S n)
                          (mkReader st RegistrarHistogram false) w1)) =
              CallRegister :: mid ++ close_calls RegistrarHistogram st).
  { rewrite Reader_Close_times_log, L1. reflexivity. }
  simpl in L. rewrite L in Hf.
  unfold labels_of_log in Hf. simpl in Hf.
  rewrite flat_map_app in Hf. fold (labels_of_log mid) in Hf.
  rewrite filter_calls_cons in Hf. simpl in Hf.
  rewrite filter_app, (transfer_calls_are_no_calls mid F) in Hf. simpl in Hf.
  assert (Hf' : filter (fun l => is_call l = true) ls = [LRegister; LDone])
    by (rewrite Hf; destruct (closer st); reflexivity).
  clear Hf. rename Hf' into Hf.
  destruct (registers_dones_of_calls ls) as [HR HD].
  rewrite Hf in HR, HD.
  rewrite (run_cnt ls s s' H Er), <- HR, <- HD.
  change (registers [LRegister; LDone] - dones [LRegister; LDone]) with 0.
  rewrite Z.add_0_r. apply Z.mod_small. exact (wf_cnt s H).
Qed.

Lemma wrapper_life_keeps_live_count_witness :
  exists s',
    run [LDecay; LRegister; LDecay; LUpdate 11; LDone; LDecay; LTick]
        (NewSelfCleaningHistogram [] 150) = Some s' /\
    cnt s' = 0.
Proof.
  eexists. split; [vm_compute; reflexivity|].
  match goal with |- cnt ?s' = _ =>
    apply (wrapper_life_keeps_live_count example_clock short_stream [[]] 1 0%Z
             [(5%Z, Some (Err "unexpected EOF"))]
             {| env := 12%Z;
                log := [CallRegister; CallXfer []; CallUpdate 11; CallDone; CallClose] |}
             (NewSelfCleaningHistogram [] 150) s'
             [LDecay; LRegister; LDecay; LUpdate 11; LDone; LDecay; LTick]
             (reachable_New [] 150))
  end.
  - vm_compute. reflexivity.
  - vm_compute. reflexivity.
  - vm_compute. reflexivity.
Defined.

(** ** What touches the pool *)




(** ** The calls, statement by statement *)

Import Statements.

(** The functions [Register], [Done] and [Shutdown] are the statements of
    the call run one after the other. *)
Lemma Register_statements (s : state) :
  Register s = Register_send (Register_add s).
Proof. reflexivity. Qed.

Lemma Done_statements (s : state) :
  Done s = (let (s1, n) := Done_add s in
            if n =? 0 then Done_send s1 else Ret s1).
Proof. reflexivity. Qed.

Lemma Shutdown_statements (s : state) :
  Shutdown s = (if Shutdown_test s then Shutdown_close (Shutdown_set s) else Ret s).
Proof. unfold Shutdown, Shutdown_test. destruct (closed s); reflexivity. Qed.

Lemma exec_stmts_app (xs ys : list stmt) (k : config) :
  exec_stmts (xs ++ ys) k =
    match exec_stmts xs k with
    | Next k1 => exec_stmts ys k1
    | o => o
    end.
Proof.
  revert k. induction xs as [|x xs IH]; intros k; simpl; [reflexivity|].
  destruct (exec_stmt x k); [apply IH | reflexivity | reflexivity].
Qed.

Lemma stmt_reachable_exec (xs : list stmt) (k k' : config) :
  stmt_reachable k -> exec_stmts xs k = Next k' -> stmt_reachable k'.
Proof.
  intros (h & dl & x0 & E0) E. exists h, dl, (x0 ++ xs).
  rewrite exec_stmts_app, E0. exact E.
Qed.

(** A step of the interleavings of whole calls is a run of statements
    between configurations with no call under way. *)
Lemma step_is_statements (l : label) (s s' : state) :
  step l s = Some s' ->
  exec_stmts (statements_of l s) (idle s) = Next (idle s').
Proof.
  intros E. destruct l; simpl in E; simpl.
  - apply of_result_Some in E. rewrite Register_statements in E.
    rewrite E. reflexivity.
  - apply of_result_Some in E. rewrite Done_statements in E.
    unfold Done_add in *. simpl in *.
    destruct (_ =? 0) eqn:En; simpl; rewrite En; simpl.
    + rewrite E. reflexivity.
    + injection E as <-. reflexivity.
  - apply of_result_Some in E. rewrite Shutdown_statements in E.
    destruct (Shutdown_test s) eqn:Et; simpl; rewrite Et; simpl.
    + rewrite E. reflexivity.
    + injection E as <-. reflexivity.
  - injection E as <-. reflexivity.
  - rewrite E. reflexivity.
  - rewrite E. reflexivity.
  - rewrite E. reflexivity.
  - injection E as <-. reflexivity.
Qed.

Lemma run_is_statements (ls : list label) (s s' : state) :
  run ls s = Some s' ->
  exists xs, exec_stmts xs (idle s) = Next (idle s').
Proof.
  revert s. induction ls as [|l ls IH]; intros s E; simpl in E.
  - injection E as <-. exists []. reflexivity.
  - destruct (step l s) as [s1|] eqn:E1; [|discriminate].
    destruct (IH s1 E) as (xs & Hxs).
    exists (statements_of l s ++ xs).
    rewrite exec_stmts_app, (step_is_statements l s s1 E1). exact Hxs.
Qed.

Lemma reachable_is_stmt_reachable (s : state) :
  reachable s -> stmt_reachable (idle s).
Proof.
  intros (h & dl & ls & E). destruct (run_is_statements ls _ s E) as (xs & Hxs).
  exists h, dl, xs. exact Hxs.
Qed.

(** *** The invariant of the configurations *)

Lemma decay_step_q (s s' : state) : decay_step s = Some s' -> q s' = q s.
Proof. intros E. decay_cases E. Qed.

Lemma expire_q (i : nat) (s s' : state) : expire i s = Some s' -> q s' = q s.
Proof. intros E. timer_cases E. Qed.

Lemma run_clear_q (i : nat) (s s' : state) : run_clear i s = Some s' -> q s' = q s.
Proof. intros E. timer_cases E. Qed.

(** [decay] and the timers do not read the flag. *)
Lemma decay_step_set_closed (s : state) (b : bool) :
  decay_step (set_closed s b) =
    match decay_step s with
    | Some s' => Some (set_closed s' b)
    | None => None
    end.
Proof.
  unfold decay_step, stop_if_set, arm. simpl.
  destruct (decay_pc s); simpl; try reflexivity.
  - destruct (recv_ready (c s)); [reflexivity|].
    destruct (recv_ready (q s)); reflexivity.
  - destruct (t s); reflexivity.
  - destruct (recv_ready (d s)); reflexivity.
  - destruct (t s); reflexivity.
Qed.

Lemma expire_set_closed (i : nat) (s : state) (b : bool) :
  expire i (set_closed s b) =
    match expire i s with
    | Some s' => Some (set_closed s' b)
    | None => None
    end.
Proof.
  unfold expire. simpl. destruct (timers s !! i) as [[dl []]|]; try reflexivity.
  destruct (dl <=? now s); reflexivity.
Qed.

Lemma run_clear_set_closed (i : nat) (s : state) (b : bool) :
  run_clear i (set_closed s b) =
    match run_clear i s with
    | Some s' => Some (set_closed s' b)
    | None => None
    end.
Proof.
  unfold run_clear. simpl. destruct (timers s !! i) as [[dl []]|]; reflexivity.
Qed.

Lemma wf_flag_decay_step (s s' : state) :
  wf (flag_as_q s) -> decay_step s = Some s' -> wf (flag_as_q s').
Proof.
  intros H E. unfold flag_as_q. rewrite (decay_step_q s s' E).
  apply (wf_decay_step (flag_as_q s)); [exact H|].
  unfold flag_as_q. rewrite decay_step_set_closed, E. reflexivity.
Qed.

Lemma wf_flag_expire (i : nat) (s s' : state) :
  wf (flag_as_q s) -> expire i s = Some s' -> wf (flag_as_q s').
Proof.
  intros H E. unfold flag_as_q. rewrite (expire_q i s s' E).
  apply (wf_expire i (flag_as_q s)); [exact H|].
  unfold flag_as_q. rewrite expire_set_closed, E. reflexivity.
Qed.

Lemma wf_flag_run_clear (i : nat) (s s' : state) :
  wf (flag_as_q s) -> run_clear i s = Some s' -> wf (flag_as_q s').
Proof.
  intros H E. unfold flag_as_q. rewrite (run_clear_q i s s' E).
  apply (wf_run_clear i (flag_as_q s)); [exact H|].
  unfold flag_as_q. rewrite run_clear_set_closed, E. reflexivity.
Qed.

(** What the sends and the close do in a configuration of the program. *)
Lemma Register_send_eq (s : state) :
  wf (flag_as_q s) ->
  Register_send s =
    Ret (if pc_eqb (decay_pc s) InSelect then set_pc s AtStop else s).
Proof.
  intros H. unfold Register_send, try_send.
  pose proof (wf_c _ H) as Hc. simpl in Hc. rewrite Hc. simpl.
  destruct (pc_eqb (decay_pc s) InSelect); reflexivity.
Qed.

Lemma Done_send_eq (s : state) :
  wf (flag_as_q s) ->
  Done_send s =
    Ret (if (buf (d s) =? 0)%nat
         then set_d s {| cap := 1; buf := 1; chan_closed := false |}
         else s).
Proof.
  intros H. unfold Done_send, try_send.
  pose proof (wf_d_open _ H) as Ho. pose proof (wf_d_cap _ H) as Hc.
  pose proof (wf_d_buf _ H) as Hb. simpl in Ho, Hc, Hb.
  rewrite Ho, Hc. destruct (buf (d s)) as [|[|n]]; reflexivity.
Qed.

Lemma Shutdown_close_eq (s : state) :
  wf (flag_as_q s) ->
  Shutdown_close s =
    if chan_closed (q s) then Panic
    else Ret (let s2 := set_q s {| cap := 0; buf := 0; chan_closed := true |} in
              if pc_eqb (decay_pc s) InSelect then set_pc s2 AtQuit else s2).
Proof.
  intros H. unfold Shutdown_close, close_chan.
  pose proof (wf_q _ H) as Hq. simpl in Hq.
  destruct (chan_closed (q s)) eqn:Ec; [reflexivity|].
  simpl. rewrite Hq. reflexivity.
Qed.

Lemma stmt_inv_start (histogram : samples) (dl : Z) : stmt_inv (start histogram dl).
Proof.
  constructor; simpl.
  - apply (wf_New histogram dl).
  - discriminate.
  - lia.
Qed.

Lemma stmt_inv_exec (x : stmt) (k k' : config) :
  stmt_inv k -> exec_stmt x k = Next k' -> stmt_inv k'.
Proof.
  intros [Hw Hf Hc] E. destruct k as [s nc nd ns ncl]. simpl in *.
  destruct x; simpl in E.
  - (* RegisterAdd *)
    injection E as <-. constructor; simpl; try assumption.
    apply (wf_set_cnt (flag_as_q s)); [exact Hw|].
    apply Z.mod_pos_bound, uint64_mod_pos.
  - (* RegisterSend *)
    destruct nc as [|n]; [discriminate|].
    rewrite (Register_send_eq s Hw) in E. injection E as <-.
    destruct (pc_eqb (decay_pc s) InSelect) eqn:Epc;
      constructor; simpl; try assumption.
    apply pc_eqb_eq in Epc. destruct Hw.
    constructor; simpl in *; try assumption.
    + discriminate.
    + intros i tm Hi Hp. destruct (wf_pending0 i tm Hi Hp) as [Ht _].
      split; [exact Ht | reflexivity].
  - (* DoneAdd *)
    injection E as <-. constructor; simpl; try assumption.
    apply (wf_set_cnt (flag_as_q s)); [exact Hw|].
    apply Z.mod_pos_bound, uint64_mod_pos.
  - (* DoneSend *)
    destruct nd as [|n]; [discriminate|].
    rewrite (Done_send_eq s Hw) in E. injection E as <-.
    destruct (buf (d s) =? 0)%nat; constructor; simpl; try assumption.
    destruct Hw. constructor; simpl in *; try assumption; reflexivity.
  - (* ShutdownTest *)
    injection E as <-.
    destruct (Shutdown_test s); constructor; simpl; assumption.
  - (* ShutdownSet *)
    destruct ns as [|n]; [discriminate|]. injection E as <-.
    constructor; simpl; try reflexivity. exact Hw.
  - (* ShutdownClose *)
    destruct ncl as [|n]; [discriminate|].
    rewrite (Shutdown_close_eq s Hw) in E.
    destruct (chan_closed (q s)) eqn:Eq; [discriminate|]. injection E as <-.
    assert (Hcl : closed s = true) by (apply Hc; lia).
    assert (E' : Shutdown (flag_as_q s) =
                 Ret (flag_as_q
                        (let s2 := set_q s {| cap := 0; buf := 0; chan_closed := true |} in
                         if pc_eqb (decay_pc s) InSelect then set_pc s2 AtQuit else s2))).
    { rewrite (Shutdown_eq _ Hw). unfold flag_as_q. simpl. rewrite Eq.
      destruct (pc_eqb (decay_pc s) InSelect); reflexivity. }
    constructor; simpl.
    + exact (wf_Shutdown _ _ Hw E').
    + intros _. destruct (pc_eqb (decay_pc s) InSelect); exact Hcl.
    + intros _. destruct (pc_eqb (decay_pc s) InSelect); exact Hcl.
  - (* Sample *)
    injection E as <-. constructor; simpl; try assumption.
    apply (wf_Update v (flag_as_q s)), Hw.
  - (* DecayStmt *)
    destruct (decay_step s) as [s'|] eqn:E1; [|discriminate]. injection E as <-.
    constructor; simpl.
    + exact (wf_flag_decay_step s s' Hw E1).
    + rewrite (decay_step_q s s' E1), (decay_step_closed s s' E1). exact Hf.
    + rewrite (decay_step_closed s s' E1). exact Hc.
  - (* TimerExpires *)
    destruct (expire i s) as [s'|] eqn:E1; [|discriminate]. injection E as <-.
    constructor; simpl.
    + exact (wf_flag_expire i s s' Hw E1).
    + rewrite (expire_q i s s' E1), (expire_closed i s s' E1). exact Hf.
    + rewrite (expire_closed i s s' E1). exact Hc.
  - (* TimerRuns *)
    destruct (run_clear i s) as [s'|] eqn:E1; [|discriminate]. injection E as <-.
    constructor; simpl.
    + exact (wf_flag_run_clear i s s' Hw E1).
    + rewrite (run_clear_q i s s' E1), (run_clear_closed i s s' E1). exact Hf.
    + rewrite (run_clear_closed i s s' E1). exact Hc.
  - (* ClockTick *)
    injection E as <-. constructor; simpl; try assumption.
    apply (wf_tick (flag_as_q s)), Hw.
Qed.

Lemma stmt_inv_execs (xs : list stmt) (k k' : config) :
  stmt_inv k -> exec_stmts xs k = Next k' -> stmt_inv k'.
Proof.
  revert k. induction xs as [|x xs IH]; intros k H E; simpl in E.
  - injection E as <-. exact H.
  - destruct (exec_stmt x k) as [k1| |] eqn:E1; try discriminate.
    eapply IH; [eapply stmt_inv_exec; eassumption | exact E].
Qed.

Lemma stmt_reachable_inv (k : config) : stmt_reachable k -> stmt_inv k.
Proof.
  intros (h & dl & xs & E). eapply stmt_inv_execs; [apply stmt_inv_start | exact E].
Qed.

(** *** Panics *)

(** X3: in the configurations that the statements of the program reach,
    whatever calls are under way, no statement panics but [close(h.q)], and
    [close(h.q)] panics exactly when h.q is closed already.  The sends of
    [Register] and [Done] never panic: h.c and h.d are never closed, h.c
    holds no element and h.d at most one.  A closed h.q has the closed flag
    set. *)
Theorem only_double_close_panics (k : config) (x : stmt) :
  stmt_reachable k ->
  (exec_stmt x k = Panics <->
     x = ShutdownClose /\ (0 < closing k)%nat /\
     chan_closed (q (shared k)) = true) /\
  chan_closed (c (shared k)) = false /\ chan_closed (d (shared k)) = false /\
  buf (c (shared k)) = 0%nat /\ (buf (d (shared k)) <= 1)%nat /\
  (chan_closed (q (shared k)) = true -> closed (shared k) = true).
Proof.
  intros Hr. destruct (stmt_reachable_inv k Hr) as [Hw Hf Hc].
  split.
  - split.
    + intros E. destruct x; simpl in E; try discriminate E.
      * destruct (sending_c k); [discriminate|].
        rewrite (Register_send_eq _ Hw) in E. discriminate.
      * destruct (sending_d k); [discriminate|].
        rewrite (Done_send_eq _ Hw) in E. discriminate.
      * destruct (setting k); discriminate.
      * destruct (closing k) eqn:En; [discriminate|].
        rewrite (Shutdown_close_eq _ Hw) in E.
        destruct (chan_closed (q (shared k))); [|discriminate].
        split; [reflexivity|]. split; [lia | reflexivity].
      * destruct (decay_step (shared k)); discriminate.
      * destruct (expire i (shared k)); discriminate.
      * destruct (run_clear i (shared k)); discriminate.
    + intros (-> & Hn & Hq). simpl.
      destruct (closing k); [lia|].
      rewrite (Shutdown_close_eq _ Hw), Hq. reflexivity.
  - pose proof (wf_c _ Hw) as Ec. simpl in Ec. rewrite Ec. simpl.
    split; [reflexivity|]. split; [exact (wf_d_open _ Hw)|].
    split; [reflexivity|]. split; [exact (wf_d_buf _ Hw) | exact Hf].
Qed.

Lemma only_double_close_panics_witness :
  exists k,
    exec_stmts [DecayStmt; ShutdownTest; ShutdownTest; ShutdownSet; ShutdownSet;
                ShutdownClose] (start [] 150) = Next k /\
    exec_stmt ShutdownClose k = Panics /\
    exec_stmt RegisterSend k <> Panics.
Proof.
  eexists. split; [vm_compute; reflexivity|].
  match goal with |- exec_stmt _ ?k = _ /\ _ =>
    assert (Hr : stmt_reachable k)
      by (exists [], 150,
            [DecayStmt; ShutdownTest; ShutdownTest; ShutdownSet; ShutdownSet;
             ShutdownClose]; vm_compute; reflexivity);
    pose proof (only_double_close_panics k ShutdownClose Hr) as (Hc & _);
    pose proof (only_double_close_panics k RegisterSend Hr) as (Hs & _)
  end.
  split.
  - apply Hc. split; [reflexivity|]. split; [simpl; lia | reflexivity].
  - intros E. apply Hs in E. destruct E as (E & _). discriminate E.
Defined.

(** The statements of [Register], [Done], [Update], [decay] and the timers
    leave the flag, h.q and the calls of [Shutdown] alone. *)
Lemma other_stmt_frame (x : stmt) (k k' : config) :
  x <> ShutdownTest -> x <> ShutdownSet -> x <> ShutdownClose ->
  exec_stmt x k = Next k' ->
  setting k' = setting k /\ closing k' = closing k /\
  closed (shared k') = closed (shared k) /\ q (shared k') = q (shared k).
Proof.
  intros N1 N2 N3 E. destruct k as [s nc nd ns ncl].
  destruct x; try congruence; simpl in E.
  - injection E as <-. repeat split.
  - destruct nc; [discriminate|]. unfold Register_send in E.
    destruct (try_send _ _); try discriminate; injection E as <-; repeat split.
  - injection E as <-. repeat split.
  - destruct nd; [discriminate|]. unfold Done_send in E.
    destruct (try_send _ _); try discriminate; injection E as <-; repeat split.
  - injection E as <-. repeat split.
  - destruct (decay_step s) as [s'|] eqn:E2; [|discriminate]. injection E as <-.
    simpl. rewrite (decay_step_q s s' E2), (decay_step_closed s s' E2). repeat split.
  - destruct (expire i s) as [s'|] eqn:E2; [|discriminate]. injection E as <-.
    simpl. rewrite (expire_q i s s' E2), (expire_closed i s s' E2). repeat split.
  - destruct (run_clear i s) as [s'|] eqn:E2; [|discriminate]. injection E as <-.
    simpl. rewrite (run_clear_q i s s' E2), (run_clear_closed i s s' E2). repeat split.
  - injection E as <-. repeat split.
Qed.

Lemma stmt_eq_dec (x y : stmt) : {x = y} + {x <> y}.
Proof. decide equality; first [apply Z.eq_dec | apply Nat.eq_dec]. Defined.

(** While calls of [Shutdown] do not overlap, at most one is under way; it
    stands before [h.closed = true] only with the flag unset, and before
    [close(h.q)] only with h.q open. *)
Lemma one_shutdown_at_a_time (x : stmt) (k k' : config) :
  stmt_inv k ->
  (setting k + closing k <= 1)%nat ->
  (setting k = 1%nat -> closed (shared k) = false) ->
  (closing k = 1%nat -> chan_closed (q (shared k)) = false) ->
  shutdowns_apart [x] k = true ->
  exec_stmt x k = Next k' ->
  (setting k' + closing k' <= 1)%nat /\
  (setting k' = 1%nat -> closed (shared k') = false) /\
  (closing k' = 1%nat -> chan_closed (q (shared k')) = false).
Proof.
  intros Hi Hn Hs Hc Ha E.
  destruct (stmt_eq_dec x ShutdownTest) as [->|N1].
  { simpl in Ha, E. rewrite andb_true_r in Ha. apply Nat.eqb_eq in Ha.
    injection E as <-. unfold Shutdown_test.
    destruct (closed (shared k)) eqn:Ec; simpl.
    - split; [exact Hn|]. split; [intros; lia | exact Hc].
    - split; [lia|]. split; [intros _; exact Ec | exact Hc]. }
  destruct (stmt_eq_dec x ShutdownSet) as [->|N2].
  { simpl in E. destruct (setting k) as [|n] eqn:En; [discriminate|].
    injection E as <-. simpl.
    split; [lia|]. split; [intros; lia|]. intros _.
    destruct (chan_closed (q (shared k))) eqn:Eq; [|reflexivity].
    rewrite (inv_flag k Hi Eq) in Hs.
    assert (Hx : true = false) by (apply Hs; lia). discriminate Hx. }
  destruct (stmt_eq_dec x ShutdownClose) as [->|N3].
  { simpl in E. destruct (closing k) as [|n] eqn:En; [discriminate|].
    destruct (Shutdown_close (shared k)); [|discriminate].
    injection E as <-. simpl. split; [lia|]. split; intros; lia. }
  destruct (other_stmt_frame x k k' N1 N2 N3 E) as (-> & -> & -> & ->).
  split; [exact Hn|]. split; assumption.
Qed.

(** X14: calls of [Shutdown] that do not overlap never panic: when no call
    of [Shutdown] tests the flag while another stands between its test and
    its [close(h.q)], no interleaving of the statements of the program
    panics, whatever calls of [Register] and [Done] are under way. *)
Theorem shutdowns_apart_never_panic
  (histogram : samples) (dl : Z) (xs : list stmt) :
  shutdowns_apart xs (start histogram dl) = true ->
  exec_stmts xs (start histogram dl) <> Panics.
Proof.
  assert (G : forall xs k,
    stmt_inv k ->
    (setting k + closing k <= 1)%nat ->
    (setting k = 1%nat -> closed (shared k) = false) ->
    (closing k = 1%nat -> chan_closed (q (shared k)) = false) ->
    shutdowns_apart xs k = true -> exec_stmts xs k <> Panics).
  { clear xs. induction xs as [|x xs IH]; intros k Hi Hn Hs Hc Ha.
    - discriminate.
    - assert (Hx : shutdowns_apart [x] k = true).
      { simpl in *. apply andb_prop in Ha. destruct Ha as [-> _].
        destruct (exec_stmt x k); reflexivity. }
      simpl in Ha. apply andb_prop in Ha. destruct Ha as [_ Ha]. simpl.
      destruct (exec_stmt x k) as [k1| |] eqn:E1.
      + destruct (one_shutdown_at_a_time x k k1 Hi Hn Hs Hc Hx E1) as (Hn1 & Hs1 & Hc1).
        apply (IH k1); try assumption.
        exact (stmt_inv_exec x k k1 Hi E1).
      + exfalso.
        assert (Hx' : x = ShutdownClose /\ (0 < closing k)%nat /\
                      chan_closed (q (shared k)) = true).
        { destruct x; simpl in E1; try discriminate E1.
          - destruct (sending_c k); [discriminate|].
            rewrite (Register_send_eq _ (inv_wf _ Hi)) in E1. discriminate.
          - destruct (sending_d k); [discriminate|].
            rewrite (Done_send_eq _ (inv_wf _ Hi)) in E1. discriminate.
          - destruct (setting k); discriminate.
          - destruct (closing k) eqn:En; [discriminate|].
            rewrite (Shutdown_close_eq _ (inv_wf _ Hi)) in E1.
            destruct (chan_closed (q (shared k))); [|discriminate].
            split; [reflexivity|]. split; [lia | reflexivity].
          - destruct (decay_step (shared k)); discriminate.
          - destruct (expire i (shared k)); discriminate.
          - destruct (run_clear i (shared k)); discriminate. }
        destruct Hx' as (_ & Hpos & Hq). rewrite Hc in Hq by lia. discriminate.
      + discriminate. }
  intros Ha. apply G; simpl; try lia; try discriminate.
  - apply stmt_inv_start.
  - exact Ha.
Qed.

Lemma shutdowns_apart_never_panic_witness :
  exec_stmts [DecayStmt; RegisterAdd; ShutdownTest; RegisterSend; ShutdownSet;
              DoneAdd; ShutdownClose; DoneSend; ShutdownTest; DecayStmt]
             (start [] 150) <> Panics.
Proof.
  apply (shutdowns_apart_never_panic [] 150). vm_compute. reflexivity.
Defined.

(** X15: [Shutdown] is not safe for concurrent use.  From any
    configuration in which the closed flag is not set, two calls of
    [Shutdown] that both test the flag before either sets it end in the
    panic of the second [close(h.q)], in whichever order their later
    statements run. *)
Theorem overlapping_shutdowns_panic (k : config) :
  closed (shared k) = false ->
  exec_stmts [ShutdownTest; ShutdownTest; ShutdownSet; ShutdownClose;
              ShutdownSet; ShutdownClose] k = Panics /\
  exec_stmts [ShutdownTest; ShutdownTest; ShutdownSet; ShutdownSet;
              ShutdownClose; ShutdownClose] k = Panics.
Proof.
  intros Hc.
  destruct k as [[p n0 c0 [qc qb qcl] d0 fl n dl pc0 t0 tm nw] nc nd ns ncl].
  simpl in Hc. subst fl.
  destruct qcl, pc0; vm_compute; split; reflexivity.
Qed.

Lemma overlapping_shutdowns_panic_witness :
  exec_stmts [ShutdownTest; ShutdownTest; ShutdownSet; ShutdownClose;
              ShutdownSet; ShutdownClose] registering_example = Panics.
Proof.
  apply (overlapping_shutdowns_panic registering_example). reflexivity.
Defined.

(** *** A Register that decay receives *)

Lemma wf_flag_no_fire (s : state) :
  wf (flag_as_q s) -> may_be_armed (decay_pc s) = false -> no_timer_can_fire s.
Proof.
  intros H Hp i. unfold expire.
  destruct (timers s !! i) as [[dl st]|] eqn:Ei; [|reflexivity].
  destruct st; try reflexivity.
  destruct (wf_pending _ H i _ Ei eq_refl) as [_ Hm]. simpl in Hm. congruence.
Qed.

(** While [decay] waits at [<-h.d] with h.d empty and no call of [Done]
    stands before its send, only a [Done] that decrements can end the
    wait. *)
Lemma draining_needs_signal (xs : list stmt) (k k' : config) :
  decay_pc (shared k) = AtRecvD -> recv_ready (d (shared k)) = false ->
  sending_d k = 0%nat ->
  Forall (fun x => is_done_add x = false) xs ->
  exec_stmts xs k = Next k' ->
  decay_pc (shared k') = AtRecvD /\ recv_ready (d (shared k')) = false /\
  sending_d k' = 0%nat.
Proof.
  revert k. induction xs as [|x xs IH]; intros k Hp Hd Hn F E; simpl in E.
  - injection E as <-. repeat split; simpl; assumption.
  - inversion F as [|? ? Hx F']; subst.
    destruct (exec_stmt x k) as [k1| |] eqn:E1; try discriminate.
    assert (H1 : decay_pc (shared k1) = AtRecvD /\
                 recv_ready (d (shared k1)) = false /\ sending_d k1 = 0%nat).
    { destruct k as [s nc nd ns ncl]. simpl in Hp, Hd, Hn. subst nd.
      destruct x; simpl in E1; try discriminate; try discriminate Hx.
      - injection E1 as <-. repeat split; simpl; assumption.
      - destruct nc; [discriminate|]. unfold Register_send in E1.
        rewrite Hp in E1. unfold try_send in E1. simpl in E1.
        destruct (chan_closed (c s)); [discriminate|].
        destruct (buf (c s) <? cap (c s))%nat;
          injection E1 as <-; repeat split; simpl; assumption.
      - injection E1 as <-. destruct (Shutdown_test s); repeat split; simpl; assumption.
      - destruct ns; [discriminate|]. injection E1 as <-. repeat split; simpl; assumption.
      - destruct ncl; [discriminate|]. unfold Shutdown_close in E1.
        destruct (close_chan (q s)); [|discriminate]. simpl in E1.
        rewrite Hp in E1. simpl in E1. injection E1 as <-. repeat split; simpl; assumption.
      - injection E1 as <-. repeat split; simpl; assumption.
      - unfold decay_step in E1. rewrite Hp, Hd in E1. discriminate.
      - destruct (expire i s) as [s'|] eqn:E2; [|discriminate]. injection E1 as <-.
        simpl. timer_cases E2. repeat split; simpl; assumption.
      - destruct (run_clear i s) as [s'|] eqn:E2; [|discriminate]. injection E1 as <-.
        simpl. timer_cases E2. repeat split; simpl; assumption.
      - injection E1 as <-. repeat split; simpl; assumption. }
    destruct H1 as (Hp1 & Hd1 & Hn1).
    exact (IH k1 Hp1 Hd1 Hn1 F' E).
Qed.

(** X13: when the send of a [Register] finds [decay] parked in its [select]
    with h.d empty, and no call of [Done] stands between its decrement and
    its send, the next statement of [decay] stops the armed timer, and from
    then until a [Done] decrements the live-count no timer can expire:
    [decay] stays at [<-h.d] with its timer disarmed, whatever statements
    of other calls are interleaved. *)
Theorem register_disarms_until_signal (k k' : config) (xs : list stmt) :
  stmt_reachable k ->
  decay_pc (shared k) = InSelect -> buf (d (shared k)) = 0%nat ->
  sending_d k = 0%nat ->
  Forall (fun x => is_done_add x = false) xs ->
  exec_stmts (RegisterSend :: DecayStmt :: xs) k = Next k' ->
  decay_pc (shared k') = AtRecvD /\ no_timer_can_fire (shared k').
Proof.
  intros Hr Hp Hb Hn F E.
  pose proof (stmt_reachable_inv k Hr) as Hi.
  pose proof (stmt_reachable_inv k' (stmt_reachable_exec _ k k' Hr E)) as Hi'.
  simpl in E. destruct (sending_c k) as [|n]; [discriminate|].
  rewrite (Register_send_eq _ (inv_wf k Hi)), Hp in E. simpl in E.
  match type of E with exec_stmts xs ?k2 = _ => set (k2' := k2) in E end.
  assert (Hd2 : recv_ready (d (shared k2')) = false).
  { unfold k2', recv_ready. simpl.
    destruct (stop_if_set_fields (set_pc (shared k) AtStop)) as (_ & _ & Hd & _).
    rewrite Hd. simpl. rewrite Hb.
    pose proof (wf_d_open _ (inv_wf k Hi)) as Ho. simpl in Ho. rewrite Ho.
    reflexivity. }
  destruct (draining_needs_signal xs k2' k' eq_refl Hd2 Hn F E) as (Hp' & _).
  split; [exact Hp'|].
  apply (wf_flag_no_fire _ (inv_wf k' Hi')). rewrite Hp'. reflexivity.
Qed.

Lemma register_disarms_until_signal_witness :
  exists k',
    exec_stmts (RegisterSend :: DecayStmt ::
                  [ClockTick; RegisterAdd; ShutdownTest; RegisterSend; Sample 3;
                   ShutdownSet; ClockTick; ShutdownClose])
               registering_example = Next k' /\
    decay_pc (shared k') = AtRecvD /\ no_timer_can_fire (shared k').
Proof.
  eexists. split; [vm_compute; reflexivity|].
  match goal with |- decay_pc (shared ?k') = _ /\ _ =>
    apply (register_disarms_until_signal registering_example k'
             [ClockTick; RegisterAdd; ShutdownTest; RegisterSend; Sample 3;
              ShutdownSet; ClockTick; ShutdownClose]);
      [ exists [], 150,
          [DecayStmt; RegisterAdd; RegisterSend; DecayStmt; Sample 7;
           DoneAdd; DoneSend; DecayStmt; DecayStmt; DecayStmt; RegisterAdd];
        vm_compute; reflexivity
      | reflexivity | reflexivity | reflexivity
      | repeat constructor
      | vm_compute; reflexivity ]
  end.
Defined.

(** *** A drained signal that is sent late *)

Lemma exec_ticks (n : nat) (ys : list stmt) (k : config) :
  exec_stmts (repeat ClockTick n ++ ys) k =
    exec_stmts ys
      (with_shared k (set_now (shared k) (now (shared k) + Z.of_nat n))).
Proof.
  revert k. induction n as [|n IH]; intros k.
  - simpl repeat. simpl app. f_equal.
    destruct k as [[] ? ? ? ?]. unfold with_shared, set_now. simpl.
    do 2 f_equal. lia.
  - simpl repeat. simpl app. simpl exec_stmts at 1. simpl exec_stmt. rewrite IH.
    f_equal. destruct k as [[] ? ? ? ?]. unfold with_shared, set_now, tick. simpl.
    do 2 f_equal. lia.
Qed.

(** X16: the drained signal of a [Done] counts whenever it is sent.  When
    [decay] waits at [<-h.d] with h.d empty and a call of [Done] that read 0
    earlier stands before its send, that send releases [decay], which arms
    the timer; once the delay has passed the timer expires and clears the
    pool, with the live-count as it was, whatever its value. *)
Theorem late_signal_clears_pool (k : config) :
  stmt_reachable k ->
  decay_pc (shared k) = AtRecvD -> buf (d (shared k)) = 0%nat ->
  (0 < sending_d k)%nat ->
  let i := length (timers (shared k)) in
  exists k',
    exec_stmts ([DoneSend; DecayStmt; DecayStmt] ++
                repeat ClockTick (Z.to_nat (delay (shared k))) ++
                [TimerExpires i; TimerRuns i]) k = Next k' /\
    cnt (shared k') = cnt (shared k) /\
    pool (shared k') = [] /\ clears (shared k') = S (clears (shared k)).
Proof.
  intros Hr Hp Hb Hn i.
  pose proof (inv_wf k (stmt_reachable_inv k Hr)) as Hw.
  pose proof (wf_d_cap _ Hw) as Hcap. pose proof (wf_d_open _ Hw) as Hopen.
  destruct k as [[p n0 c0 q0 [dc db dcl] fl cn dl pc0 t0 tm nw] nc nd ns ncl].
  simpl in Hp, Hb, Hn, Hcap, Hopen, i. subst pc0 db dc dcl.
  destruct nd as [|nd]; [lia|].
  rewrite exec_stmts_app.
  replace (exec_stmts [DoneSend; DecayStmt; DecayStmt] _) with
    (Next (Config (State p n0 c0 q0 (Chan 1 0 false) fl cn dl AtSelect (Some i)
                         (tm ++ [Timer (nw + dl) TPending]) nw)
                  nc nd ns ncl)) by reflexivity.
  rewrite exec_ticks. simpl.
  unfold expire, run_clear. simpl.
  rewrite lookup_app_r by (unfold i; lia).
  replace (i - length tm)%nat with 0%nat by (unfold i; lia). simpl.
  destruct (nw + dl <=? nw + Z.of_nat (Z.to_nat dl)) eqn:El;
    [|apply Z.leb_gt in El; lia].
  simpl.
  rewrite list_lookup_insert_eq
    by (rewrite length_app; simpl; unfold i; lia).
  eexists. split; [reflexivity|]. repeat split.
Qed.

Lemma late_signal_clears_pool_witness :
  exists k',
    exec_stmts [DoneSend; DecayStmt; DecayStmt; ClockTick; ClockTick;
                TimerExpires 1; TimerRuns 1] late_done_example = Next k' /\
    cnt (shared k') = 1 /\ pool (shared k') = [].
Proof.
  assert (Hr : stmt_reachable late_done_example).
  { exists [], 2,
      [DecayStmt; RegisterAdd; RegisterSend; DoneAdd;
       DecayStmt; RegisterAdd; RegisterSend; DoneAdd; DoneSend;
       DecayStmt; DecayStmt; DecayStmt;
       Sample 7; RegisterAdd; RegisterSend; DecayStmt].
    vm_compute. reflexivity. }
  destruct (late_signal_clears_pool late_done_example Hr eq_refl eq_refl
              ltac:(simpl; lia)) as (k' & E & Hc & Hpool & _).
  exists k'. split; [exact E|]. split; [exact Hc | exact Hpool].
Defined.

(** *** After [close(h.q)] *)

Lemma quitting_stmt (x : stmt) (k k' : config) :
  stmt_inv k -> chan_closed (q (shared k)) = true ->
  quitting (decay_pc (shared k)) = true ->
  exec_stmt x k = Next k' ->
  chan_closed (q (shared k')) = true /\
  quitting (decay_pc (shared k')) = true /\
  length (timers (shared k')) = length (timers (shared k)).
Proof.
  intros Hi Hq Hp E. pose proof (inv_wf k Hi) as Hw.
  assert (Hb : pc_eqb (decay_pc (shared k)) InSelect = false)
    by (destruct (decay_pc (shared k)); try reflexivity; discriminate Hp).
  destruct k as [s nc nd ns ncl]. simpl in *.
  destruct x; simpl in E.
  - injection E as <-. repeat split; assumption.
  - destruct nc; [discriminate|].
    rewrite (Register_send_eq s Hw), Hb in E. injection E as <-.
    repeat split; assumption.
  - injection E as <-. repeat split; assumption.
  - destruct nd; [discriminate|].
    rewrite (Done_send_eq s Hw) in E. injection E as <-.
    destruct (buf (d s) =? 0)%nat; repeat split; assumption.
  - injection E as <-. destruct (Shutdown_test s); repeat split; assumption.
  - destruct ns; [discriminate|]. injection E as <-. repeat split; assumption.
  - destruct ncl; [discriminate|].
    rewrite (Shutdown_close_eq s Hw), Hq in E. discriminate.
  - injection E as <-. repeat split; assumption.
  - destruct (decay_step s) as [s'|] eqn:E1; [|discriminate]. injection E as <-.
    simpl. rewrite (decay_step_q s s' E1). split; [exact Hq|].
    unfold decay_step, recv_ready in E1.
    pose proof (wf_c _ Hw) as Hc. simpl in Hc. rewrite Hc, Hq in E1. simpl in E1.
    destruct (stop_if_set_fields s) as (_ & _ & _ & _ & _ & _ & Hlen & _).
    destruct (decay_pc s); simpl in E1; try discriminate Hp;
      try discriminate E1; rewrite ?orb_true_r in E1; injection E1 as <-; simpl;
      split; first [reflexivity | exact Hlen].
  - destruct (expire i s) as [s'|] eqn:E1; [|discriminate]. injection E as <-.
    simpl. rewrite (expire_q i s s' E1). split; [exact Hq|].
    unfold expire in E1. destruct (timers s !! i) as [[dl []]|]; try discriminate E1.
    split_ifs E1; try discriminate E1. injection E1 as <-. simpl.
    split; [exact Hp | apply length_insert].
  - destruct (run_clear i s) as [s'|] eqn:E1; [|discriminate]. injection E as <-.
    simpl. rewrite (run_clear_q i s s' E1). split; [exact Hq|].
    unfold run_clear in E1. destruct (timers s !! i) as [[dl []]|]; try discriminate E1.
    injection E1 as <-. simpl. split; [exact Hp | apply length_insert].
  - injection E as <-. repeat split; assumption.
Qed.

(** X17: once [close(h.q)] has run, whatever calls are under way, the send
    of a [Register] is dropped and changes nothing, and the send of a
    [Done] at most fills the empty buffer of h.d.  When [decay] is then on
    its way out (at its [select], in its quit branch, or returned), it
    stays so and no timer is armed any more, whatever statements follow. *)
Theorem sends_after_close (k k' : config) (xs : list stmt) :
  stmt_reachable k -> chan_closed (q (shared k)) = true ->
  exec_stmts xs k = Next k' ->
  Register_send (shared k) = Ret (shared k) /\
  (Done_send (shared k) = Ret (shared k) \/
   buf (d (shared k)) = 0%nat /\
   Done_send (shared k) =
     Ret (set_d (shared k) {| cap := 1; buf := 1; chan_closed := false |})) /\
  (quitting (decay_pc (shared k)) = true ->
   quitting (decay_pc (shared k')) = true /\
   length (timers (shared k')) = length (timers (shared k))).
Proof.
  intros Hr Hq E. pose proof (stmt_reachable_inv k Hr) as Hi.
  pose proof (inv_wf k Hi) as Hw.
  split; [|split].
  - rewrite (Register_send_eq _ Hw).
    destruct (pc_eqb (decay_pc (shared k)) InSelect) eqn:Epc; [|reflexivity].
    apply pc_eqb_eq in Epc. exfalso.
    apply (wf_select _ Hw); [exact Hq | exact Epc].
  - rewrite (Done_send_eq _ Hw).
    destruct (buf (d (shared k)) =? 0)%nat eqn:Eb; [|left; reflexivity].
    right. apply Nat.eqb_eq in Eb. split; [exact Eb | reflexivity].
  - intros Hp. clear Hr Hw.
    revert k Hi Hq Hp E. induction xs as [|x xs IH]; intros k Hi Hq Hp E; simpl in E.
    + injection E as <-. split; [exact Hp | reflexivity].
    + destruct (exec_stmt x k) as [k1| |] eqn:E1; try discriminate.
      destruct (quitting_stmt x k k1 Hi Hq Hp E1) as (Hq1 & Hp1 & Hl1).
      destruct (IH k1 (stmt_inv_exec x k k1 Hi E1) Hq1 Hp1 E) as (Hp' & Hl').
      split; [exact Hp' | rewrite Hl', Hl1; reflexivity].
Qed.

Lemma sends_after_close_witness :
  exists k k',
    exec_stmts [DecayStmt; RegisterAdd; RegisterSend; DecayStmt; DoneAdd;
                DoneSend; DecayStmt; DecayStmt; RegisterAdd; DoneAdd;
                ShutdownTest; ShutdownSet; ShutdownClose] (start [7] 150)
      = Next k /\
    exec_stmts [RegisterSend; DoneSend; DecayStmt; ClockTick; DecayStmt] k
      = Next k' /\
    decay_pc (shared k') = Exited /\ length (timers (shared k')) = 1%nat.
Proof.
  eexists. eexists. split; [vm_compute; reflexivity|].
  match goal with |- exec_stmts ?xs ?k = Next ?k' /\ _ =>
    assert (E : exec_stmts xs k = Next ?[x]) by (vm_compute; reflexivity);
    assert (Hr : stmt_reachable k)
      by (exists [7], 150,
            [DecayStmt; RegisterAdd; RegisterSend; DecayStmt; DoneAdd;
             DoneSend; DecayStmt; DecayStmt; RegisterAdd; DoneAdd;
             ShutdownTest; ShutdownSet; ShutdownClose];
          vm_compute; reflexivity)
  end.
  split; [exact E|].
  destruct (sends_after_close _ _ _ Hr eq_refl E) as (_ & _ & H3).
  destruct (H3 eq_refl) as (_ & Hl).
  split; [reflexivity | exact Hl].
Defined.
